(** * corehsm: a hierarchical state machine for stateful CLI tools

    Shallow embedding of the Go package [corehsm] (states, registry,
    command dispatch, machine runtime, snapshots) and the properties of
    its specification.

    Conventions of the embedding.
    - A Go [*State] is a value of the inductive type [State]: either the
      nil pointer ([nilState]) or a pointer to the immutable struct built
      by [NewState].  States are never mutated after creation and a parent
      must exist before its child, so parent chains are finite.
    - A Go map is a [gmap]; the comma-ok lookup [v, ok := m[k]] is [m !! k].
    - A run-time panic (nil pointer dereference) is the outcome [Panicked].
    - Methods with a pointer receiver that mutate it return the new value.
    - Function values stored in the registry (command handlers) are
      elements of an abstract type [H]; calling one is [callHandler]. *)

From Stdlib Require Import String Ascii List Sorted Permutation Bool Arith Lia.
From Stdlib Require DecimalString.
From stdpp Require Import gmap strings list sorting.

Set Warnings "-clear-no-such-hyp".


(** ** Outcomes: a call either returns or panics *)

Inductive outcome (A : Type) : Type :=
| Returned (a : A)
| Panicked.
Arguments Returned {A} a.
Arguments Panicked {A}.

Definition outcome_bind {A B : Type} (f : A → outcome B) (o : outcome A) : outcome B :=
  match o with
  | Returned a => f a
  | Panicked => Panicked
  end.

#[global] Instance outcome_ret : MRet outcome := @Returned.
#[global] Instance outcome_mbind : MBind outcome := @outcome_bind.

(** ** State hierarchy *)

(** [*State]: nil, or a pointer to [State{name, parent}]. *)
Inductive State : Type :=
| nilState
| NewState (name : string) (parent : State).

#[global] Instance State_eq_dec : EqDecision State.
Proof. solve_decision. Defined.

(** [func (s *State) Name() string { return s.name }] *)
Definition State_Name (s : State) : outcome string :=
  match s with
  | nilState => Panicked
  | NewState name _ => Returned name
  end.

(** [func (s *State) Parent() *State { return s.parent }] *)
Definition State_Parent (s : State) : outcome State :=
  match s with
  | nilState => Panicked
  | NewState _ parent => Returned parent
  end.

(** ** Commands, definitions, results, errors *)

Record Command : Type := NewCommand {
  Command_Name : string;
  Command_Args : list string
}.

Record CommandDef : Type := mkCommandDef {
  Name : string;
  Args : string;
  Description : string
}.

#[global] Instance CommandDef_eq_dec : EqDecision CommandDef.
Proof. solve_decision. Defined.

Record Result : Type := mkResult {
  Output : string;
  NextState : State
}.

(** A Go [error] value, carried by its message ([fmt.Errorf] with [%s]
    verbs only concatenates). *)
Inductive error : Type :=
| Errorf (msg : string).

Definition Error (e : error) : string :=
  match e with Errorf msg => msg end.

(** ** Registry *)

Section Registry.
(** The type of handler function values. *)
Context {H : Type}.

Record RegisteredCommand : Type := mkRegisteredCommand {
  Def : CommandDef;
  Handler : H
}.

Record Registry : Type := mkRegistry {
  states : gmap string State;
  commandHandlers : gmap string (gmap string RegisteredCommand)
}.

Definition NewRegistry : Registry :=
  {| states := ∅; commandHandlers := ∅ |}.

(** [RegisterState]: nil and known names return at once; otherwise the
    state is stored under its name and the parent is registered. *)
Fixpoint RegisterState (r : Registry) (state : State) : Registry :=
  match state with
  | nilState => r
  | NewState name parent =>
      match states r !! name with
      | Some _ => r
      | None =>
          RegisterState
            {| states := <[name := state]> (states r);
               commandHandlers := commandHandlers r |}
            parent
      end
  end.

(** [RegisterCommand]: [state.Name()] panics on nil; the inner map is
    created on first use; the binding is stored under [def.Name]. *)
Definition RegisterCommand (r : Registry) (state : State) (def : CommandDef)
    (handler : H) : outcome Registry :=
  stateName ← State_Name state;
  let inner := default ∅ (commandHandlers r !! stateName) in
  mret {| states := states r;
          commandHandlers :=
            <[stateName :=
                <[Name def := {| Def := def; Handler := handler |}]> inner]>
              (commandHandlers r) |}.

Definition GetStateByName (r : Registry) (name : string) : option State :=
  states r !! name.

(** [findCommandHandler]: the loop [for s := state; s != nil; s = s.Parent()]. *)
Fixpoint findCommandHandler (r : Registry) (state : State) (cmdName : string)
    : option H :=
  match state with
  | nilState => None
  | NewState name parent =>
      match commandHandlers r !! name with
      | Some stateHandlers =>
          match stateHandlers !! cmdName with
          | Some cmd => Some (Handler cmd)
          | None => findCommandHandler r parent cmdName
          end
      | None => findCommandHandler r parent cmdName
      end
  end.

(** First loop of [buildStatePath]: the states from the target up to the
    root, in visiting order. *)
Fixpoint chain (s : State) : list State :=
  match s with
  | nilState => []
  | NewState _ parent => s :: chain parent
  end.

(** The binding of command [c] on the state [s] itself: the two map
    lookups that [findCommandHandler] and [FindAvailableCommands] make
    at one step of their walk. *)
Definition binding (r : Registry) (s : State) (c : string)
    : option RegisteredCommand :=
  match s with
  | nilState => None
  | NewState name _ =>
      match commandHandlers r !! name with
      | Some stateHandlers => stateHandlers !! c
      | None => None
      end
  end.

(** [rc] is the binding of [c] on the closest state of the chain of [s]
    (inclusive of [s]) that binds [c]. *)
Definition closest_binding (r : Registry) (s : State) (c : string)
    (rc : RegisteredCommand) : Prop :=
  ∃ pre a post,
    chain s = pre ++ a :: post
    ∧ Forall (λ b, binding r b c = None) pre
    ∧ binding r a c = Some rc.

(** No state of the chain of [s] binds [c]. *)
Definition unbound (r : Registry) (s : State) (c : string) : Prop :=
  Forall (λ b, binding r b c = None) (chain s).

End Registry.
Arguments RegisteredCommand : clear implicits.
Arguments Registry : clear implicits.

(** ** Enumeration of the available commands *)

(** The comparison handed to [sort.Slice]:
    [commands[i].Name < commands[j].Name], Go's bytewise string order. *)
Definition lessByName (a b : CommandDef) : bool :=
  String.ltb (Name a) (Name b).

Section Enumeration.
Context {H : Type}.

(** Go leaves the iteration order of [range] over a map unspecified:
    [rangeMap] is the order in which a map is visited. *)
Variable rangeMap :
  gmap string (RegisteredCommand H) → list (string * RegisteredCommand H).

(** [sort.Slice] sorts in place and is not stable: [sortSlice less l] is
    the slice it leaves behind. *)
Variable sortSlice :
  (CommandDef → CommandDef → bool) → list CommandDef → list CommandDef.

(** Body of [for cmdName, regCmd := range stateHandlers]. *)
Definition visitCommand (acc : gset string * list CommandDef)
    (kv : string * RegisteredCommand H) : gset string * list CommandDef :=
  let '(seen, commands) := acc in
  let '(cmdName, regCmd) := kv in
  if decide (cmdName ∈ seen) then (seen, commands)
  else ({[cmdName]} ∪ seen, commands ++ [Def regCmd]).

(** The outer loop [for s := state; s != nil; s = s.Parent()], threading
    the set [seen] and the slice [commands]. *)
Fixpoint collectCommands (r : Registry H) (state : State)
    (acc : gset string * list CommandDef) : gset string * list CommandDef :=
  match state with
  | nilState => acc
  | NewState name parent =>
      match commandHandlers r !! name with
      | Some stateHandlers =>
          collectCommands r parent
            (foldl visitCommand acc (rangeMap stateHandlers))
      | None => collectCommands r parent acc
      end
  end.

Definition FindAvailableCommands (r : Registry H) (state : State)
    : list CommandDef :=
  sortSlice lessByName (collectCommands r state (∅, [])).2.

End Enumeration.

(** What Go guarantees of the two library behaviours above. *)
Definition rangeMap_ok {H : Type}
    (rangeMap : gmap string (RegisteredCommand H)
                → list (string * RegisteredCommand H)) : Prop :=
  ∀ m, rangeMap m ≡ₚ map_to_list m.

Definition sortSlice_ok
    (sortSlice : (CommandDef → CommandDef → bool)
                 → list CommandDef → list CommandDef) : Prop :=
  ∀ l, sortSlice lessByName l ≡ₚ l
       ∧ Sorted (λ a b, lessByName b a = false) (sortSlice lessByName l).

(** ** Ancestor path *)

(** Second loop of [buildStatePath]:
    [for i, j := 0, len(path)-1; i < j; i, j = i+1, j-1] swapping
    [path[i]] and [path[j]].  The indices are natural numbers: for the
    empty slice Go starts with [j = -1] and the loop does not run, as it
    does not here with [j = 0].  Both indices stay below [len(path)], so
    the lookups never fail.  [fuel] bounds the number of iterations. *)
Fixpoint swapEnds (fuel i j : nat) (path : list State) : list State :=
  match fuel with
  | O => path
  | S fuel' =>
      if Nat.ltb i j then
        match path !! i, path !! j with
        | Some a, Some b => swapEnds fuel' (S i) (Nat.pred j) (<[j := a]> (<[i := b]> path))
        | _, _ => path
        end
      else path
  end.

Definition buildStatePath (targetState : State) : list State :=
  let path := chain targetState in
  swapEnds (length path) 0 (length path - 1) path.

(** [descends path s]: [path] runs from a root (a state without parent)
    down to [s], each state followed by one of its children; it is empty
    for nil. *)
Inductive descends : list State → State → Prop :=
| descends_nil : descends [] nilState
| descends_child path name parent :
    descends path parent →
    descends (path ++ [NewState name parent]) (NewState name parent).

(** ** Machine runtime *)

Section Machine.
(** [T]: the data payload; [H]: handler function values; [Ctx]: Go's
    [context.Context], passed through to the handlers untouched. *)
Context {T H Ctx : Type}.

Record Snapshot : Type := mkSnapshot {
  CurrentStateName : string;
  Snapshot_Data : T
}.

Record Machine : Type := mkMachine {
  CurrentState : State;
  StateStack : list State;
  Data : T;
  registry : Registry H
}.

(** Calling a handler with the machine pointer and the command: the
    handler may write the machine's fields, then returns a [Result] and
    an error (or panics). *)
Variable callHandler :
  Ctx → H → Machine → Command → outcome (Machine * (Result * option error)).

Definition TransitionTo (m : Machine) (newState : State) : Machine :=
  {| CurrentState := newState;
     StateStack := buildStatePath newState;
     Data := Data m;
     registry := registry m |}.

Definition NewMachine (r : Registry H) (initialState : State) (initialData : T)
    : Machine + error :=
  let m := {| CurrentState := nilState; StateStack := [];
              Data := initialData; registry := r |} in
  inl (TransitionTo m initialState).

Definition NewMachineFromSnapshot (r : Registry H) (snapshot : Snapshot)
    : Machine + error :=
  match GetStateByName r (CurrentStateName snapshot) with
  | None =>
      inr (Errorf ("state '" +:+ CurrentStateName snapshot
                   +:+ "' not found in registry"))
  | Some initialState =>
      inl {| CurrentState := initialState;
             StateStack := buildStatePath initialState;
             Data := Snapshot_Data snapshot;
             registry := r |}
  end.

(** [Execute] returns the machine as the call leaves it together with
    the pair [(string, error)]. *)
Definition Execute (ctx : Ctx) (m : Machine) (cmd : Command)
    : outcome (Machine * (string * option error)) :=
  match findCommandHandler (registry m) (CurrentState m) (Command_Name cmd) with
  | None =>
      stateName ← State_Name (CurrentState m);
      mret (m, ("", Some (Errorf ("command '" +:+ Command_Name cmd
                                  +:+ "' not available in state '"
                                  +:+ stateName +:+ "'"))))
  | Some handler =>
      '(m1, (result, err)) ← callHandler ctx handler m cmd;
      match err with
      | Some e => mret (m1, (Output result, Some e))
      | None =>
          m2 ← match NextState result with
               | nilState => mret m1
               | NewState nextName _ =>
                   curName ← State_Name (CurrentState m1);
                   if String.eqb nextName curName then mret m1
                   else mret (TransitionTo m1 (NextState result))
               end;
          mret (m2, (Output result, None))
      end
  end.

Definition GetSnapshot (m : Machine) : outcome Snapshot :=
  stateName ← State_Name (CurrentState m);
  mret {| CurrentStateName := stateName; Snapshot_Data := Data m |}.

Definition Machine_Registry (m : Machine) : Registry H := registry m.

End Machine.
Arguments Snapshot : clear implicits.
Arguments Machine : clear implicits.

(** ** Registries as programs build them *)

Section Reachability.
Context {H : Type}.

(** [built l r]: the registry [r] results from [NewRegistry] by calls of
    [RegisterState], on exactly the states of [l], interleaved with calls
    of [RegisterCommand] that return.  The fields of a registry are
    unexported, so these are all the registries a program can hold. *)
Inductive built : list State → Registry H → Prop :=
| built_new : built [] NewRegistry
| built_state l r s :
    built l r → built (s :: l) (RegisterState r s)
| built_command l r s def h r' :
    built l r → RegisterCommand r s def h = Returned r' → built l r'.

(** The state [s] itself is the entry of the state set under its name. *)
Definition stored (r : Registry H) (s : State) : Prop :=
  match s with
  | nilState => False
  | NewState name _ => states r !! name = Some s
  end.

(** Some state is registered under the name of [s]. *)
Definition present (r : Registry H) (s : State) : Prop :=
  match s with
  | nilState => False
  | NewState name _ => is_Some (states r !! name)
  end.

(** Every entry of the state set is a state of [U] filed under its own
    name. *)
Definition keyed (r : Registry H) (U : list State) : Prop :=
  ∀ k x, states r !! k = Some x → x ∈ U ∧ ∃ p, x = NewState k p.

(** The parent of every entry is nil or is itself an entry. *)
Definition parentsStored (r : Registry H) : Prop :=
  ∀ k name p, states r !! k = Some (NewState name p) →
              p = nilState ∨ stored r p.

(** Every binding is filed under the name of its own definition. *)
Definition commandsKeyed (r : Registry H) : Prop :=
  ∀ stateName stateHandlers c rc,
    commandHandlers r !! stateName = Some stateHandlers →
    stateHandlers !! c = Some rc →
    Name (Def rc) = c.

End Reachability.

(** Names identify the states of [U]: two of them with one name are the
    same state. *)
Definition uniqueNames (U : list State) : Prop :=
  ∀ name p p', NewState name p ∈ U → NewState name p' ∈ U → p = p'.

(** The states registered by the calls on [l], with all their ancestors. *)
Definition familyOf (l : list State) : list State :=
  l ≫= chain.

(** [sub] occurs in [msg]. *)
Definition mentions (msg sub : string) : Prop :=
  ∃ pre post, msg = pre +:+ sub +:+ post.


(** The texts of the two errors the package itself creates. *)
Definition stateNotFoundText (stateName : string) : string :=
  "state '" +:+ stateName +:+ "' not found in registry".

Definition commandNotAvailableText (cmdName stateName : string) : string :=
  "command '" +:+ cmdName +:+ "' not available in state '" +:+ stateName +:+ "'".

(** ** A small application, used to exercise the statements

    The counter application of the package documentation, extended with a
    second state and a few more handlers. *)

Module Demo.

Definition Root : State := NewState "Root" nilState.
Definition Ready : State := NewState "Ready" Root.
Definition Finished : State := NewState "Finished" Root.
(** A second state object named "Ready", under another parent. *)
Definition ReadyTwin : State := NewState "Ready" Finished.

(** Two hierarchies that reuse the name "B". *)
Definition LoneB : State := NewState "B" nilState.
Definition A : State := NewState "A" nilState.
Definition B : State := NewState "B" A.
Definition C : State := NewState "C" B.

(** The handler functions of the application. *)
Inductive handler : Type :=
| increment   (* adds one to the counter *)
| finish      (* moves to [Finished] *)
| reenter     (* asks for the twin of the current state *)
| overflow    (* adds one, then fails, asking for [Finished] *)
| help        (* prints a fixed text *)
| helpTopic.  (* prints the text of a topic *)

#[global] Instance handler_eq_dec : EqDecision handler.
Proof. solve_decision. Defined.

Definition setData (m : Machine nat handler) (d : nat) : Machine nat handler :=
  {| CurrentState := CurrentState m; StateStack := StateStack m;
     Data := d; registry := registry m |}.

Definition call (ctx : unit) (h : handler) (m : Machine nat handler)
    (cmd : Command) : outcome (Machine nat handler * (Result * option error)) :=
  match h with
  | increment =>
      Returned (setData m (S (Data m)),
                ({| Output := "Count is now larger"; NextState := nilState |}, None))
  | finish =>
      Returned (m, ({| Output := "bye"; NextState := Finished |}, None))
  | reenter =>
      Returned (m, ({| Output := "again"; NextState := ReadyTwin |}, None))
  | overflow =>
      Returned (setData m (S (Data m)),
                ({| Output := "partial"; NextState := Finished |},
                 Some (Errorf "counter overflow")))
  | help =>
      Returned (m, ({| Output := "usage"; NextState := nilState |}, None))
  | helpTopic =>
      Returned (m, ({| Output := "usage of a topic"; NextState := nilState |}, None))
  end.

Definition def (name : string) : CommandDef :=
  {| Name := name; Args := ""; Description := "" |}.

(** [registry.RegisterCommand(state, def(name), h)] on a non-nil state. *)
Definition bind (r : Registry handler) (s : State) (d : CommandDef) (h : handler)
    : Registry handler :=
  match RegisterCommand r s d h with
  | Returned r' => r'
  | Panicked => r
  end.

Definition registry0 : Registry handler :=
  RegisterState (RegisterState NewRegistry Ready) Finished.

Definition registry1 : Registry handler :=
  bind (bind (bind (bind (bind (bind registry0
    Root (def "help") help)
    Ready (def "inc") increment)
    Ready (def "finish") finish)
    Ready (def "again") reenter)
    Ready (def "boom") overflow)
    Ready {| Name := "help"; Args := "[topic]"; Description := "" |} helpTopic.

(** Bindings only; [RegisterState] is never called. *)
Definition registryNoStates : Registry handler :=
  bind NewRegistry Root (def "help") help.

Definition machine1 : Machine nat handler :=
  {| CurrentState := Ready; StateStack := buildStatePath Ready;
     Data := 0; registry := registry1 |}.

(** [NewMachine(registry1, nil, 0)]: a machine without a current state. *)
Definition machineNil : Machine nat handler :=
  {| CurrentState := nilState; StateStack := buildStatePath nilState;
     Data := 0; registry := registry1 |}.

(** [NewMachine(NewRegistry(), Ready, 7)]: [Ready] was never registered. *)
Definition machineUnregistered : Machine nat handler :=
  {| CurrentState := Ready; StateStack := buildStatePath Ready;
     Data := 7; registry := NewRegistry |}.

(** The two library behaviours [FindAvailableCommands] depends on. *)
Definition rangeMap (m : gmap string (RegisteredCommand handler))
    : list (string * RegisteredCommand handler) :=
  map_to_list m.

(** Another admissible iteration order: the same entries, backwards. *)
Definition rangeMapBackwards (m : gmap string (RegisteredCommand handler))
    : list (string * RegisteredCommand handler) :=
  reverse (map_to_list m).

Definition sortSlice (less : CommandDef → CommandDef → bool)
    (l : list CommandDef) : list CommandDef :=
  @merge_sort _ (λ a b, less b a = false)
    (λ a b, decide (less b a = false)) l.

End Demo.

(** ** Consistency of a machine *)

Section Consistency.
Context {T H : Type}.

(** The cached path of [m] is the path of its current state. *)
Definition consistent (m : Machine T H) : Prop :=
  StateStack m = buildStatePath (CurrentState m).

End Consistency.

(** ** The character-sheet application ([examples/character])

    The handlers and the set-up of the example program, over the package
    above.  Go's [int] is taken as the 64-bit two's complement integer of
    the usual platforms: a [Z] wrapped by [wrapInt] after every
    arithmetic operation.  Three library functions the handlers call are
    not part of the repository and are parameters: [Atoi]
    ([strconv.Atoi], [None] for an error), [fmtInt] (the [%d] verb of
    [fmt.Sprintf]) and [floorHalf] ([int(math.Floor(float64(x) / 2.0))]).
    Of [main] the part up to its call of [saveSnapshot] is modelled:
    file access, and the display functions that [main] calls after
    saving, are not. *)

Module Character.

Definition wrapInt (x : Z) : Z :=
  ((x + 2 ^ 63) `mod` 2 ^ 64 - 2 ^ 63)%Z.

Record Stats : Type := mkStats {
  STR : Z;
  DEX : Z;
  CON : Z
}.

Record CharacterData : Type := mkCharacterData {
  Name : string;
  Race : string;
  Class : string;
  Level : Z;
  HP : Z;
  MaxHP : Z;
  BaseStats : Stats;
  Inventory : list string
}.

(** [CharacterData{}], the zero value. *)
Definition zeroData : CharacterData :=
  {| Name := ""; Race := ""; Class := ""; Level := 0; HP := 0; MaxHP := 0;
     BaseStats := {| STR := 0; DEX := 0; CON := 0 |}; Inventory := [] |}.

Definition RootState : State := NewState "Root" nilState.
Definition NoSheetState : State := NewState "NoSheet" RootState.
Definition SheetExistsState : State := NewState "SheetExists" RootState.

(** The three handler functions, as values stored in the registry. *)
Inductive handlerFunc : Type :=
| fnCreate
| fnTakeDamage
| fnLevelup.

#[global] Instance handlerFunc_eq_dec : EqDecision handlerFunc.
Proof. solve_decision. Defined.

Definition setData (m : Machine CharacterData handlerFunc) (d : CharacterData)
    : Machine CharacterData handlerFunc :=
  {| CurrentState := CurrentState m; StateStack := StateStack m;
     Data := d; registry := registry m |}.

(** [corehsm.Result{}], the zero value. *)
Definition zeroResult : Result := {| Output := ""; NextState := nilState |}.

Section Handlers.
Variable Atoi : string → option Z.
Variable fmtInt : Z → string.
Variable floorHalf : Z → Z.

(** [create]: the three arguments are read after the length check, so
    the indexing cannot fail. *)
Definition create (ctx : unit) (m : Machine CharacterData handlerFunc)
    (cmd : Command)
    : outcome (Machine CharacterData handlerFunc * (Result * option error)) :=
  match Command_Args cmd with
  | [name; race; class] =>
      Returned
        (setData m {| Name := name; Race := race; Class := class;
                      Level := 1; HP := 10; MaxHP := 10;
                      BaseStats := {| STR := 10; DEX := 10; CON := 10 |};
                      Inventory := [] |},
         ({| Output := "'" +:+ name +:+ "' the " +:+ race +:+ " " +:+ class
                       +:+ " has been created!";
             NextState := SheetExistsState |}, None))
  | _ =>
      Returned (m, (zeroResult,
                    Some (Errorf "usage: create [name] [race] [class]")))
  end.

Definition takeDamage (ctx : unit) (m : Machine CharacterData handlerFunc)
    (cmd : Command)
    : outcome (Machine CharacterData handlerFunc * (Result * option error)) :=
  match Command_Args cmd with
  | [arg] =>
      match Atoi arg with
      | None =>
          Returned (m, (zeroResult,
                        Some (Errorf "invalid amount: must be a number")))
      | Some amount =>
          let d := Data m in
          let hp := wrapInt (HP d - amount) in
          let hp := if (hp <? 0)%Z then 0%Z else hp in
          Returned
            (setData m {| Name := Name d; Race := Race d; Class := Class d;
                          Level := Level d; HP := hp; MaxHP := MaxHP d;
                          BaseStats := BaseStats d;
                          Inventory := Inventory d |},
             ({| Output := Name d +:+ " takes " +:+ fmtInt amount
                           +:+ " damage!";
                 NextState := nilState |}, None))
      end
  | _ =>
      Returned (m, (zeroResult, Some (Errorf "usage: take-damage [amount]")))
  end.

Definition levelup (ctx : unit) (m : Machine CharacterData handlerFunc)
    (cmd : Command)
    : outcome (Machine CharacterData handlerFunc * (Result * option error)) :=
  let d := Data m in
  let level := wrapInt (Level d + 1) in
  let conBonus := floorHalf (wrapInt (CON (BaseStats d) - 10)) in
  let hpIncrease := wrapInt (5 + conBonus) in
  let hpIncrease := if (hpIncrease <? 1)%Z then 1%Z else hpIncrease in
  let maxHP := wrapInt (MaxHP d + hpIncrease) in
  Returned
    (setData m {| Name := Name d; Race := Race d; Class := Class d;
                  Level := level; HP := maxHP; MaxHP := maxHP;
                  BaseStats := BaseStats d; Inventory := Inventory d |},
     ({| Output := Name d +:+ " reached level " +:+ fmtInt level +:+ "!";
         NextState := nilState |}, None)).

(** Calling a stored handler value. *)
Definition call (ctx : unit) (h : handlerFunc)
    (m : Machine CharacterData handlerFunc) (cmd : Command)
    : outcome (Machine CharacterData handlerFunc * (Result * option error)) :=
  match h with
  | fnCreate => create ctx m cmd
  | fnTakeDamage => takeDamage ctx m cmd
  | fnLevelup => levelup ctx m cmd
  end.

(** The registry [main] sets up: two calls of [RegisterState], three of
    [RegisterCommand]. *)
Definition createDef : CommandDef :=
  mkCommandDef "create" "[name] [race] [class]" "Create a new character.".
Definition takeDamageDef : CommandDef :=
  mkCommandDef "take-damage" "[amount]" "Inflict damage to the character.".
Definition levelupDef : CommandDef :=
  mkCommandDef "levelup" "" "Level up the character.".

Definition setup : outcome (Registry handlerFunc) :=
  let r := RegisterState NewRegistry NoSheetState in
  let r := RegisterState r SheetExistsState in
  r ← RegisterCommand r NoSheetState createDef fnCreate;
  r ← RegisterCommand r SheetExistsState takeDamageDef fnTakeDamage;
  RegisterCommand r SheetExistsState levelupDef fnLevelup.

(** The states of the application and their names. *)
Definition appStates : list State :=
  [RootState; NoSheetState; SheetExistsState].

Definition appStateNames : list string :=
  ["Root"; "NoSheet"; "SheetExists"].

(** The registry [setup] returns. *)
Definition appRegistry : Registry handlerFunc :=
  match setup with
  | Returned r => r
  | Panicked => NewRegistry
  end.

(** [main] from the loaded snapshot up to its call of [saveSnapshot]
    (lines 99 to 141), in the steps its comments name.  [loaded] is what
    [loadSnapshot] returned ([None] for an error), [argv] is
    [os.Args[1:]].  What [main] does after that call, the display of the
    sheet and of the commands, is not part of these definitions.

    Machine loading: the error of [NewMachineFromSnapshot] is dropped by
    [main], which then holds a nil machine ([None] here). *)
Definition loadMachine (r : Registry handlerFunc)
    (loaded : option (Snapshot CharacterData))
    : option (Machine CharacterData handlerFunc) :=
  match loaded with
  | None =>
      match NewMachine r NoSheetState zeroData with
      | inl m => Some m
      | inr _ => None
      end
  | Some snapshot =>
      match NewMachineFromSnapshot r snapshot with
      | inl m => Some m
      | inr _ => None
      end
  end.

(** Command execution and state saving: [Execute] is called when there
    is an argument, and [GetSnapshot] always; both dereference the
    machine.  [Returned (snapshot, executed)]: [main] reaches its call of
    [saveSnapshot] with [snapshot], after [Execute] returned [executed]
    if it was called.  [Panicked]: [main] panics before that call. *)
Definition executeAndSave (m : option (Machine CharacterData handlerFunc))
    (argv : list string)
    : outcome (Snapshot CharacterData * option (string * option error)) :=
  '(m, executed) ←
     match argv with
     | [] => mret (m, None)
     | name :: args =>
         match m with
         | None => Panicked
         | Some m =>
             '(m', res) ← Execute call tt m (NewCommand name args);
             mret (Some m', Some res)
         end
     end;
  match m with
  | None => Panicked
  | Some m =>
      snapshot ← GetSnapshot m;
      mret (snapshot, executed)
  end.

Definition mainToSave (loaded : option (Snapshot CharacterData))
    (argv : list string)
    : outcome (Snapshot CharacterData * option (string * option error)) :=
  r ← setup;
  executeAndSave (loadMachine r loaded) argv.

End Handlers.

(** Instances of the library parameters, for running the application:
    decimal parsing with an optional sign and a range check, decimal
    printing, and [int(math.Floor(float64(x) / 2.0))] computed exactly. *)
Definition decimalAtoi (s : string) : option Z :=
  let parsed :=
    match s with
    | String "+" (String "+" _) => None
    | String "+" (String "-" _) => None
    | String "+" rest => DecimalString.NilZero.int_of_string rest
    | _ => DecimalString.NilZero.int_of_string s
    end in
  match parsed with
  | Some d =>
      let n := Z.of_int d in
      if ((- 2 ^ 63 <=? n) && (n <? 2 ^ 63))%Z then Some n else None
  | None => None
  end.

Definition decimalFmt (n : Z) : string :=
  DecimalString.NilZero.string_of_int (Z.to_int n).

(** [float64(x)] for an [int]: [x] itself below 2^53 in absolute value,
    and otherwise [x] rounded to 53 significant bits, to the nearest and
    on a tie to the even one.  The result is an integer. *)
Definition toFloat64 (x : Z) : Z :=
  let a := Z.abs x in
  if (a <? 2 ^ 53)%Z then x
  else
    let e := (Z.log2 a - 52)%Z in
    let q := (a `div` 2 ^ e)%Z in
    let r := (a `mod` 2 ^ e)%Z in
    let half := (2 ^ (e - 1))%Z in
    let q := if ((half <? r) || ((r =? half) && Z.odd q))%Z
             then (q + 1)%Z else q in
    (Z.sgn x * (q * 2 ^ e))%Z.

(** Dividing a float64 by 2.0 is exact, [math.Floor] is exact, and the
    result lies within [int], so the conversion back is exact. *)
Definition halve (x : Z) : Z := (toFloat64 x `div` 2)%Z.

(** The sheet of one character at a given level and hit points, and its
    snapshot, for running the application. *)
Definition ariaSheet (level hp maxHP : Z) : CharacterData :=
  {| Name := "Aria"; Race := "Elf"; Class := "Mage";
     Level := level; HP := hp; MaxHP := maxHP;
     BaseStats := {| STR := 10; DEX := 10; CON := 10 |}; Inventory := [] |}.

Definition ariaSnapshot (level hp maxHP : Z) : Snapshot CharacterData :=
  {| CurrentStateName := "SheetExists";
     Snapshot_Data := ariaSheet level hp maxHP |}.

(** The machine of a first run, and a machine holding that sheet. *)
Definition freshMachine : Machine CharacterData handlerFunc :=
  {| CurrentState := NoSheetState; StateStack := [RootState; NoSheetState];
     Data := zeroData; registry := appRegistry |}.

Definition ariaMachine (level hp maxHP : Z)
    : Machine CharacterData handlerFunc :=
  {| CurrentState := SheetExistsState;
     StateStack := [RootState; SheetExistsState];
     Data := ariaSheet level hp maxHP; registry := appRegistry |}.

(** Iteration order and sorting routine for running the listing. *)
Definition rangeMap (m : gmap string (RegisteredCommand handlerFunc))
    : list (string * RegisteredCommand handlerFunc) :=
  map_to_list m.

Definition sortSlice (less : CommandDef → CommandDef → bool)
    (l : list CommandDef) : list CommandDef :=
  @merge_sort _ (λ a b, less b a = false)
    (λ a b, decide (less b a = false)) l.

End Character.

(** * Properties *)

(** ** Command lookup *)

Section Lookup.
Context {H : Type}.
Implicit Types (r : Registry H) (s : State) (c : string).

Lemma findCommandHandler_step r name parent c :
  findCommandHandler r (NewState name parent) c =
  match binding r (NewState name parent) c with
  | Some rc => Some (Handler rc)
  | None => findCommandHandler r parent c
  end.
Proof.
  simpl. destruct (commandHandlers r !! name) as [hs|]; [|done].
  by destruct (hs !! c).
Qed.

Lemma closest_binding_nil r c rc : ¬ closest_binding r nilState c rc.
Proof. intros (pre & a & post & Hch & _). by destruct pre. Qed.

Lemma closest_binding_step r name parent c rc :
  closest_binding r (NewState name parent) c rc ↔
    binding r (NewState name parent) c = Some rc
    ∨ (binding r (NewState name parent) c = None
       ∧ closest_binding r parent c rc).
Proof.
  split.
  - intros (pre & a & post & Hch & Hpre & Ha). cbn [chain] in Hch.
    destruct pre as [|b pre]; simplify_eq/=; [by left|].
    right. apply Forall_cons in Hpre as [Hb Hpre].
    split; [done|]. by exists pre, a, post.
  - intros [Hb|[Hb (pre & a & post & Hch & Hpre & Ha)]].
    + by exists [], (NewState name parent), (chain parent).
    + exists (NewState name parent :: pre), a, post. cbn [chain].
      rewrite Hch. split_and!; [done| by constructor |done].
Qed.

Lemma closest_binding_unique r s c rc1 rc2 :
  closest_binding r s c rc1 → closest_binding r s c rc2 → rc1 = rc2.
Proof.
  induction s as [|name parent IH]; [by intros ?%closest_binding_nil|].
  rewrite !closest_binding_step. naive_solver.
Qed.

Lemma findCommandHandler_Some r s c h :
  findCommandHandler r s c = Some h ↔
  ∃ rc, closest_binding r s c rc ∧ Handler rc = h.
Proof.
  induction s as [|name parent IH].
  - split; [done|]. by intros (rc & ?%closest_binding_nil & _).
  - rewrite findCommandHandler_step.
    setoid_rewrite closest_binding_step.
    destruct (binding r (NewState name parent) c) as [rc|]; [|naive_solver].
    split; [intros [= <-]; eauto|]. naive_solver.
Qed.

Lemma findCommandHandler_None r s c :
  findCommandHandler r s c = None ↔ unbound r s c.
Proof.
  unfold unbound. induction s as [|name parent IH].
  - split; [constructor|done].
  - rewrite findCommandHandler_step. cbn [chain]. rewrite Forall_cons.
    destruct (binding r (NewState name parent) c); naive_solver.
Qed.

(** C1.  [findCommandHandler r s c] returns exactly the handler of the
    binding of [c] on the closest state of the chain of [s] (starting at
    [s] itself) that binds [c]; a binding on [s] therefore wins over any
    ancestor's; and nothing is found exactly when no state of the chain,
    the root included, binds [c]. *)
Theorem findCommandHandler_closest r s c :
  (∀ h, findCommandHandler r s c = Some h ↔
        ∃ rc, closest_binding r s c rc ∧ Handler rc = h)
  ∧ (∀ rc, binding r s c = Some rc →
           findCommandHandler r s c = Some (Handler rc))
  ∧ (∀ name parent a rc rca,
       s = NewState name parent → a ∈ chain parent →
       binding r s c = Some rc → binding r a c = Some rca →
       findCommandHandler r s c = Some (Handler rc))
  ∧ (findCommandHandler r s c = None ↔ unbound r s c).
Proof.
  split_and!.
  - intros h. apply findCommandHandler_Some.
  - intros rc Hrc. destruct s as [|name parent]; [done|].
    by rewrite findCommandHandler_step, Hrc.
  - intros name parent a rc rca -> _ Hrc _.
    by rewrite findCommandHandler_step, Hrc.
  - apply findCommandHandler_None.
Qed.

End Lookup.

(** ** Registration *)

Section Registration.
Context {H : Type}.
Implicit Types (r : Registry H) (s a : State) (c : string).

Lemma RegisterState_commandHandlers r s :
  commandHandlers (RegisterState r s) = commandHandlers r.
Proof.
  revert r. induction s as [|name parent IH]; intros r; [done|].
  simpl. destruct (states r !! name); [done|]. by rewrite IH.
Qed.

Lemma RegisterCommand_returns r name parent def h :
  RegisterCommand r (NewState name parent) def h =
  Returned
    {| states := states r;
       commandHandlers :=
         <[name := <[Name def := {| Def := def; Handler := h |}]>
                     (default ∅ (commandHandlers r !! name))]>
           (commandHandlers r) |}.
Proof. done. Qed.

Lemma RegisterCommand_inv r a def h r' :
  RegisterCommand r a def h = Returned r' →
  ∃ name parent,
    a = NewState name parent
    ∧ states r' = states r
    ∧ commandHandlers r' =
        <[name := <[Name def := {| Def := def; Handler := h |}]>
                    (default ∅ (commandHandlers r !! name))]>
          (commandHandlers r).
Proof.
  destruct a as [|name parent]; [done|].
  rewrite RegisterCommand_returns. intros [= <-]. by exists name, parent.
Qed.

Lemma RegisterCommand_binding r a def h r' :
  RegisterCommand r a def h = Returned r' →
  binding r' a (Name def) = Some {| Def := def; Handler := h |}.
Proof.
  intros (name & parent & -> & _ & Hc)%RegisterCommand_inv.
  simpl. rewrite Hc, lookup_insert_eq. apply lookup_insert_eq.
Qed.

Lemma findCommandHandler_ext r r' s c :
  commandHandlers r = commandHandlers r' →
  findCommandHandler r s c = findCommandHandler r' s c.
Proof.
  intros Heq. induction s as [|name parent IH]; [done|].
  simpl. by rewrite Heq, IH.
Qed.

Lemma binding_is_Some_found r s a c :
  a ∈ chain s → is_Some (binding r a c) →
  is_Some (findCommandHandler r s c).
Proof.
  intros Ha Hb.
  destruct (findCommandHandler r s c) eqn:Hf; [done|].
  apply findCommandHandler_None in Hf.
  unfold unbound in Hf. rewrite Forall_forall in Hf.
  rewrite (Hf a Ha) in Hb. by destruct Hb.
Qed.

Lemma built_nil_states r : built [] r → states r = ∅.
Proof.
  intros Hb. remember [] as l eqn:Hl.
  induction Hb as [|l r s Hb IH|l r s def h r' Hb IH Hr]; [done|done|].
  apply RegisterCommand_inv in Hr as (? & ? & _ & -> & _). auto.
Qed.

(** C10.  Dispatch never consults the state set: two registries with the
    same binding table resolve alike, [RegisterState] changes no
    resolution, and a handler bound by [RegisterCommand] on a state [a]
    of the chain of [s] is found from [s] (it is the one returned
    unless a closer state binds the same name), also in a registry
    whose state set is empty because [RegisterState] was never
    called. *)
Theorem dispatch_independent_of_state_set :
  (∀ r r' s c,
     commandHandlers r = commandHandlers r' →
     findCommandHandler r s c = findCommandHandler r' s c)
  ∧ (∀ r x s c,
       findCommandHandler (RegisterState r x) s c = findCommandHandler r s c)
  ∧ (∀ r a def h r' s,
       RegisterCommand r a def h = Returned r' → a ∈ chain s →
       states r' = states r
       ∧ is_Some (findCommandHandler r' s (Name def))
       ∧ (∀ pre post,
            chain s = pre ++ a :: post →
            Forall (λ b, binding r' b (Name def) = None) pre →
            findCommandHandler r' s (Name def) = Some h))
  ∧ (∀ r a def h r' s,
       built [] r → RegisterCommand r a def h = Returned r' → a ∈ chain s →
       states r' = ∅ ∧ is_Some (findCommandHandler r' s (Name def))).
Proof.
  split_and!.
  - apply findCommandHandler_ext.
  - intros r x s c. apply findCommandHandler_ext, RegisterState_commandHandlers.
  - intros r a def h r' s Hr Ha.
    pose proof (RegisterCommand_binding _ _ _ _ _ Hr) as Hb.
    split_and!.
    + by apply RegisterCommand_inv in Hr as (? & ? & _ & -> & _).
    + eapply binding_is_Some_found; [done|]. by rewrite Hb.
    + intros pre post Hch Hpre. apply findCommandHandler_Some.
      exists {| Def := def; Handler := h |}. split; [|done].
      by exists pre, a, post.
  - intros r a def h r' s Hb Hr Ha.
    pose proof (RegisterCommand_binding _ _ _ _ _ Hr) as Hbd. split.
    + apply RegisterCommand_inv in Hr as (? & ? & _ & -> & _).
      by apply built_nil_states.
    + eapply binding_is_Some_found; [done|]. by rewrite Hbd.
Qed.

End Registration.

(** ** The state set *)

Section StateSet.
Context {H : Type}.
Implicit Types (r : Registry H) (s a : State) (U l : list State).

Lemma RegisterState_known r name parent x :
  states r !! name = Some x → RegisterState r (NewState name parent) = r.
Proof. intros Hx. simpl. by rewrite Hx. Qed.

Lemma RegisterState_fresh r name parent :
  states r !! name = None →
  RegisterState r (NewState name parent) =
  RegisterState {| states := <[name := NewState name parent]> (states r);
                   commandHandlers := commandHandlers r |} parent.
Proof. intros Hx. simpl. by rewrite Hx. Qed.

Lemma RegisterState_preserves r s k x :
  states r !! k = Some x → states (RegisterState r s) !! k = Some x.
Proof.
  revert r. induction s as [|name parent IH]; intros r Hk; [done|].
  simpl. destruct (states r !! name) eqn:Hn; [done|].
  apply IH. simpl. rewrite lookup_insert_ne; [done|congruence].
Qed.

Lemma RegisterState_present r name parent :
  present (RegisterState r (NewState name parent)) (NewState name parent).
Proof.
  unfold present. destruct (states r !! name) as [x|] eqn:Hn.
  - erewrite RegisterState_known by done. by rewrite Hn.
  - rewrite RegisterState_fresh by done.
    erewrite RegisterState_preserves; [done|]. simpl. apply lookup_insert_eq.
Qed.

Lemma stored_present r s : stored r s → present r s.
Proof. destruct s; [done|]. simpl. by intros ->. Qed.

Lemma chain_self s : s ≠ nilState → s ∈ chain s.
Proof. destruct s; [done|]. intros _. simpl. apply list_elem_of_here. Qed.

Lemma chain_nilState a s : a ∈ chain s → a ≠ nilState.
Proof.
  induction s as [|name parent IH]; simpl; [by intros ?%not_elem_of_nil|].
  intros [->|?]%elem_of_cons; [done|auto].
Qed.

Lemma stored_chain r :
  parentsStored r → ∀ s, stored r s → ∀ a, a ∈ chain s → stored r a.
Proof.
  intros Hp. induction s as [|name parent IH]; [done|].
  intros Hs a [->|Ha]%elem_of_cons; [done|].
  apply IH; [|done].
  destruct (Hp _ _ _ Hs) as [->|?]; [|done].
  by apply not_elem_of_nil in Ha.
Qed.

Lemma RegisterState_closed U :
  uniqueNames U →
  ∀ s r,
    keyed r U →
    (∀ a, a ∈ chain s → a ∈ U) →
    (∀ k name p, states r !! k = Some (NewState name p) →
                 p = s ∨ p = nilState ∨ stored r p) →
    keyed (RegisterState r s) U
    ∧ parentsStored (RegisterState r s)
    ∧ (s ≠ nilState → stored (RegisterState r s) s).
Proof.
  intros Huniq. induction s as [|name parent IH]; intros r Hkey Hch Hpar.
  - split_and!; [done| |done].
    intros k name p Hk. destruct (Hpar _ _ _ Hk) as [?|[?|?]]; auto.
  - destruct (states r !! name) as [x|] eqn:Hn.
    + rewrite (RegisterState_known _ _ _ _ Hn).
      destruct (Hkey _ _ Hn) as [HxU [p0 ->]].
      assert (p0 = parent) as ->.
      { eapply Huniq; [done|]. apply Hch, chain_self. done. }
      split_and!; [done| |done].
      intros k name' p Hk. destruct (Hpar _ _ _ Hk) as [->|[?|?]]; auto.
    + rewrite (RegisterState_fresh _ _ _ Hn).
      set (r1 := {| states := <[name := NewState name parent]> (states r);
                    commandHandlers := commandHandlers r |}).
      destruct (IH r1) as (Hk' & Hp' & Hs').
      * intros k x. unfold r1. simpl. rewrite lookup_insert.
        case_decide as Hd; [|by apply Hkey].
        intros [= <-]. subst k. split; [|by eexists].
        apply Hch, chain_self. done.
      * intros a Ha. apply Hch. simpl. by apply list_elem_of_further.
      * intros k name' p. unfold r1. simpl. rewrite lookup_insert.
        case_decide as Hd; [intros [= -> ->]; by left|].
        intros Hk. right. destruct (Hpar _ _ _ Hk) as [->|[?|Hst]]; [|by left|].
        -- right. simpl. apply lookup_insert_eq.
        -- right. destruct p as [|pn pp]; [done|]. simpl in *.
           rewrite lookup_insert_ne; [done|congruence].
      * split_and!; [done|done|]. intros _. simpl.
        apply RegisterState_preserves. unfold r1. simpl. apply lookup_insert_eq.
Qed.

Lemma familyOf_cons s l : familyOf (s :: l) = chain s ++ familyOf l.
Proof. done. Qed.

Lemma built_closed U l r :
  uniqueNames U → built l r → (∀ a, a ∈ familyOf l → a ∈ U) →
  keyed r U ∧ parentsStored r ∧ ∀ s, s ∈ l → s ≠ nilState → stored r s.
Proof.
  intros Huniq Hb. induction Hb as [|l r s Hb IH|l r s def h r' Hb IH Hr];
    intros HU.
  - split_and!; [intros ??; simpl; by rewrite lookup_empty
                |intros ???; simpl; by rewrite lookup_empty
                |by intros ? ?%not_elem_of_nil].
  - destruct IH as (Hk & Hp & Hs).
    { intros a Ha. apply HU. rewrite familyOf_cons. set_solver. }
    destruct (RegisterState_closed U Huniq s r) as (Hk' & Hp' & Hs');
      [done| |by intros ??? ?%Hp; auto|].
    { intros a Ha. apply HU. rewrite familyOf_cons. set_solver. }
    split_and!; [done|done|].
    intros s' [->|Hin]%elem_of_cons Hne; [auto|].
    specialize (Hs _ Hin Hne). destruct s' as [|n p]; [done|].
    by apply RegisterState_preserves.
  - destruct (IH HU) as (Hk & Hp & Hs).
    apply RegisterCommand_inv in Hr as (? & ? & _ & Hst & _).
    unfold keyed, parentsStored, stored in *. by rewrite Hst.
Qed.

(** C8 (as amended).  [RegisterState] returns at once on nil and on a
    state whose name is known; otherwise it files the state under its
    name and goes on with the parent; it never replaces an entry; and,
    when names identify the states registered and their ancestors,
    every ancestor of every state passed to [RegisterState] is in the
    state set. *)
Theorem RegisterState_registers_ancestors :
  (∀ r, RegisterState r nilState = r)
  ∧ (∀ r name parent,
       is_Some (states r !! name) →
       RegisterState r (NewState name parent) = r)
  ∧ (∀ r name parent,
       states r !! name = None →
       RegisterState r (NewState name parent) =
         RegisterState
           {| states := <[name := NewState name parent]> (states r);
              commandHandlers := commandHandlers r |} parent
       ∧ stored (RegisterState r (NewState name parent))
                (NewState name parent))
  ∧ (∀ r s k x,
       states r !! k = Some x → states (RegisterState r s) !! k = Some x)
  ∧ (∀ l r,
       built l r → uniqueNames (familyOf l) →
       ∀ s a, s ∈ l → a ∈ chain s → stored r a ∧ present r a).
Proof.
  split_and!.
  - done.
  - intros r name parent [x Hx]. by eapply RegisterState_known.
  - intros r name parent Hn. split; [by apply RegisterState_fresh|].
    rewrite RegisterState_fresh by done. simpl.
    apply RegisterState_preserves. simpl. apply lookup_insert_eq.
  - intros r s k x. apply RegisterState_preserves.
  - intros l r Hb Huniq s a Hs Ha.
    destruct (built_closed _ _ _ Huniq Hb) as (_ & Hp & Hst); [done|].
    assert (stored r a) as Hsa.
    { eapply stored_chain; [done| |done]. apply Hst; [done|].
      intros ->. by apply not_elem_of_nil in Ha. }
    split; [done|]. by apply stored_present.
Qed.

End StateSet.

(** ** The ancestor path *)

Section Path.
Implicit Types (s : State) (path pre mid post : list State).

Lemma swapEnds_middle fuel : ∀ mid pre post,
  length mid ≤ 2 * fuel →
  swapEnds fuel (length pre) (length pre + length mid - 1) (pre ++ mid ++ post)
  = pre ++ reverse mid ++ post.
Proof.
  induction fuel as [|fuel IH]; intros mid pre post Hlen.
  - destruct mid; [done|simpl in Hlen; lia].
  - destruct mid as [|a mid]; simpl.
    { case_match eqn:Hlt; [apply Nat.ltb_lt in Hlt; lia|done]. }
    destruct (decide (mid = [])) as [->|Hne].
    { simpl. case_match eqn:Hlt; [apply Nat.ltb_lt in Hlt; lia|done]. }
    destruct (exists_last Hne) as (mid' & b & ->).
    simpl in Hlen. rewrite length_app in Hlen |- *. simpl in Hlen |- *.
    assert (Nat.ltb (length pre) (length pre + S (length mid' + 1) - 1) = true)
      as -> by (apply Nat.ltb_lt; lia).
    rewrite list_lookup_middle by done.
    replace (pre ++ a :: (mid' ++ [b]) ++ post)
      with ((pre ++ a :: mid') ++ b :: post)
      by (by rewrite <- !app_assoc).
    rewrite (list_lookup_middle (pre ++ a :: mid') post b)
      by (rewrite length_app; simpl; lia).
    assert (<[length pre := b]> ((pre ++ a :: mid') ++ b :: post)
            = (pre ++ b :: mid') ++ b :: post) as ->.
    { rewrite <- !app_assoc. rewrite insert_app_r_alt by lia.
      by rewrite Nat.sub_diag. }
    assert (<[length pre + S (length mid' + 1) - 1 := a]>
              ((pre ++ b :: mid') ++ b :: post)
            = (pre ++ [b]) ++ mid' ++ a :: post) as ->.
    { rewrite insert_app_r_alt by (rewrite length_app; simpl; lia).
      replace (length pre + S (length mid' + 1) - 1 - length (pre ++ b :: mid'))
        with 0 by (rewrite length_app; simpl; lia).
      simpl. by rewrite <- !app_assoc. }
    replace (Nat.pred (length pre + S (length mid' + 1) - 1))
      with (length (pre ++ [b]) + length mid' - 1)
      by (rewrite !length_app; simpl; lia).
    replace (S (length pre)) with (length (pre ++ [b]))
      by (rewrite length_app; simpl; lia).
    rewrite IH by lia.
    rewrite reverse_cons, reverse_snoc. simpl.
    by rewrite <- !app_assoc.
Qed.

Lemma buildStatePath_reverse s : buildStatePath s = reverse (chain s).
Proof.
  unfold buildStatePath.
  pose proof (swapEnds_middle (length (chain s)) (chain s) [] []) as Hs.
  simpl in Hs. rewrite !app_nil_r in Hs. apply Hs. lia.
Qed.

Lemma buildStatePath_descends s : descends (buildStatePath s) s.
Proof.
  rewrite buildStatePath_reverse.
  induction s as [|name parent IH]; simpl; [constructor|].
  rewrite reverse_cons. by constructor.
Qed.

Lemma buildStatePath_last name parent :
  last (buildStatePath (NewState name parent)) = Some (NewState name parent).
Proof. rewrite buildStatePath_reverse. simpl. rewrite reverse_cons. apply last_snoc. Qed.

End Path.

(** ** The machine runtime *)

Section Runtime.
Context {T H Ctx : Type}.
Variable callHandler :
  Ctx → H → Machine T H → Command
  → outcome (Machine T H * (Result * option error)).
Implicit Types (r : Registry H) (m : Machine T H) (s : State).

Lemma mentions_middle pre sub post : mentions (pre +:+ sub +:+ post) sub.
Proof. by exists pre, post. Qed.

Lemma string_app_assoc (a b c : string) : (a +:+ b) +:+ c = a +:+ (b +:+ c).
Proof.
  induction a as [|ch a IH]; [done|].
  change (String ch ((a +:+ b) +:+ c) = String ch (a +:+ b +:+ c)).
  by rewrite IH.
Qed.

Lemma stateNotFoundText_mentions name :
  mentions (stateNotFoundText name) name.
Proof. apply mentions_middle. Qed.

Lemma commandNotAvailableText_mentions cmdName stateName :
  mentions (commandNotAvailableText cmdName stateName) cmdName
  ∧ mentions (commandNotAvailableText cmdName stateName) stateName.
Proof.
  split; [apply mentions_middle|].
  exists ("command '" +:+ cmdName +:+ "' not available in state '"), "'".
  unfold commandNotAvailableText. by rewrite !string_app_assoc.
Qed.

Lemma built_named l r k x :
  built l r → states r !! k = Some x → ∃ p, x = NewState k p.
Proof.
  intros Hb. revert k x.
  induction Hb as [|l r s Hb IH|l r s def h r' Hb IH Hr]; intros k x.
  - simpl. by rewrite lookup_empty.
  - clear Hb. revert r IH. induction s as [|name parent IHs]; intros r IH; [apply IH|].
    simpl. destruct (states r !! name) eqn:Hn; [apply IH|].
    apply IHs. intros k' x'. simpl. rewrite lookup_insert.
    case_decide; [intros [= <-]; subst; by eexists|apply IH].
  - apply RegisterCommand_inv in Hr as (? & ? & _ & -> & _). apply IH.
Qed.

(** C5.  [NewMachineFromSnapshot] fails exactly when the snapshot's state
    name is not a key of the state set, with an error that names the
    state; otherwise it returns a machine with the snapshot's data, the
    registered state as current state, and the path from the root down
    to that state. *)
Theorem NewMachineFromSnapshot_spec r (snapshot : Snapshot T) :
  (states r !! CurrentStateName snapshot = None ↔
     ∃ e, NewMachineFromSnapshot r snapshot = inr e)
  ∧ (states r !! CurrentStateName snapshot = None →
       NewMachineFromSnapshot r snapshot
         = inr (Errorf (stateNotFoundText (CurrentStateName snapshot)))
       ∧ mentions (stateNotFoundText (CurrentStateName snapshot))
                  (CurrentStateName snapshot))
  ∧ (∀ s, states r !! CurrentStateName snapshot = Some s →
       NewMachineFromSnapshot r snapshot
         = inl {| CurrentState := s;
                  StateStack := reverse (chain s);
                  Data := Snapshot_Data snapshot;
                  registry := r |}
       ∧ descends (reverse (chain s)) s).
Proof.
  unfold NewMachineFromSnapshot, GetStateByName.
  destruct (states r !! CurrentStateName snapshot) as [s|] eqn:Hs.
  - split_and!; [|done|].
    + split; [done|]. by intros [e ?].
    + intros s' [= <-]. rewrite <- buildStatePath_reverse.
      split; [done|apply buildStatePath_descends].
  - split_and!; [|intros _; split; [done|apply stateNotFoundText_mentions]|done].
    split; [eauto|done].
Qed.

(** C4 (as amended).  When the name of the current state of [M] is a
    key of the state set of the registry, the snapshot of [M] restores
    to a machine with the same current-state name and the same data. *)
Theorem snapshot_round_trip l r (M : Machine T H) name parent :
  built l r →
  CurrentState M = NewState name parent →
  is_Some (states r !! name) →
  ∃ snapshot m',
    GetSnapshot M = Returned snapshot
    ∧ NewMachineFromSnapshot r snapshot = inl m'
    ∧ State_Name (CurrentState m') = Returned name
    ∧ Data m' = Data M.
Proof.
  intros Hb Hcur [x Hx].
  destruct (built_named _ _ _ _ Hb Hx) as [p ->].
  exists {| CurrentStateName := name; Snapshot_Data := Data M |}.
  eexists. split_and!.
  - unfold GetSnapshot. by rewrite Hcur.
  - unfold NewMachineFromSnapshot, GetStateByName. simpl. by rewrite Hx.
  - done.
  - done.
Qed.

(** C9 (as amended).  [NewMachine] returns a machine for every registry,
    initial state (nil included) and data; and on every machine whose
    current state is not nil, so on the machine just built from a state
    that is not nil, [GetSnapshot] returns the current state's name with
    the data. *)
Theorem NewMachine_GetSnapshot r s (d : T) :
  NewMachine r s d
    = inl {| CurrentState := s; StateStack := buildStatePath s;
             Data := d; registry := r |}
  ∧ (∀ m name parent,
       NewMachine r s d = inl m → s = NewState name parent →
       GetSnapshot m
         = Returned {| CurrentStateName := name; Snapshot_Data := d |})
  ∧ (∀ m name parent,
       CurrentState m = NewState name parent →
       GetSnapshot m
         = Returned {| CurrentStateName := name; Snapshot_Data := Data m |}).
Proof.
  split_and!.
  - done.
  - intros m name parent [= <-] ->. done.
  - intros m name parent Hcur. unfold GetSnapshot. by rewrite Hcur.
Qed.

(** C3 (as amended).  On a machine that has a current state, a command
    that no state of the chain binds makes [Execute] return the empty
    output with an error whose text names the command and the current
    state, and the machine is returned as it was. *)
Theorem Execute_command_not_available ctx m cmd name :
  State_Name (CurrentState m) = Returned name →
  unbound (registry m) (CurrentState m) (Command_Name cmd) →
  Execute callHandler ctx m cmd
    = Returned (m, ("", Some (Errorf
                 (commandNotAvailableText (Command_Name cmd) name))))
  ∧ mentions (commandNotAvailableText (Command_Name cmd) name) (Command_Name cmd)
  ∧ mentions (commandNotAvailableText (Command_Name cmd) name) name.
Proof.
  intros Hcur Hun. apply findCommandHandler_None in Hun.
  split; [|apply commandNotAvailableText_mentions].
  unfold Execute. rewrite Hun, Hcur. done.
Qed.

(** C6.  When the handler returns an error, [Execute] returns that
    error with the handler's output, and the machine is the one the
    handler left: its writes stay, and the requested next state is
    ignored. *)
Theorem Execute_handler_error ctx m cmd h m1 result e :
  findCommandHandler (registry m) (CurrentState m) (Command_Name cmd) = Some h →
  callHandler ctx h m cmd = Returned (m1, (result, Some e)) →
  Execute callHandler ctx m cmd = Returned (m1, (Output result, Some e)).
Proof.
  intros Hf Hc. unfold Execute. rewrite Hf, Hc. done.
Qed.


End Runtime.

(** ** Enumeration of the available commands *)

Section StringOrder.

Lemma ltb_false_leb (a b : string) :
  String.ltb b a = false ↔ String.leb a b = true.
Proof.
  unfold String.ltb, String.leb. rewrite (String.compare_antisym a b).
  by destruct (String.compare b a).
Qed.

Lemma ltb_true_iff (a b : string) :
  String.ltb a b = true ↔ String.leb a b = true ∧ a ≠ b.
Proof.
  unfold String.ltb, String.leb.
  destruct (String.compare a b) eqn:Hc.
  - apply String.compare_eq_iff in Hc. naive_solver.
  - split; [|done]. intros _. split; [done|]. intros ->.
    pose proof (String.compare_antisym b b) as Ha. rewrite Hc in Ha. done.
  - naive_solver.
Qed.

Lemma ltb_asymmetric (a b : string) :
  String.ltb a b = true → String.ltb b a = true → False.
Proof.
  unfold String.ltb. rewrite (String.compare_antisym a b).
  by destruct (String.compare b a).
Qed.

Lemma notLess_trans (a b c : CommandDef) :
  lessByName b a = false → lessByName c b = false → lessByName c a = false.
Proof.
  unfold lessByName. rewrite !ltb_false_leb. intros Hab Hbc.
  pose proof (@transitivity _ String.le _ (Name a) (Name b) (Name c)) as Ht.
  unfold String.le in Ht. apply Is_true_true, Ht; by apply Is_true_true.
Qed.

Lemma notLess_distinct (a b : CommandDef) :
  lessByName b a = false → Name a ≠ Name b → lessByName a b = true.
Proof.
  unfold lessByName. rewrite ltb_false_leb, ltb_true_iff. done.
Qed.

Lemma sorted_distinct_ascending (l : list CommandDef) :
  Sorted (λ a b, lessByName b a = false) l →
  NoDup (Name <$> l) →
  StronglySorted (λ a b, lessByName a b = true) l.
Proof.
  intros Hs Hnd.
  assert (Transitive (λ a b : CommandDef, lessByName b a = false)) as Htr
    by (intros a b c; apply notLess_trans).
  apply Sorted_StronglySorted in Hs; [|done].
  induction Hs as [|a l Hl IH Ha]; [constructor|].
  rewrite fmap_cons in Hnd. apply NoDup_cons in Hnd as [Hnotin Hnd].
  constructor; [by apply IH|].
  rewrite Forall_forall in Ha |- *. intros b Hb.
  apply notLess_distinct; [by apply Ha|].
  intros Heq. apply Hnotin. rewrite Heq. by apply list_elem_of_fmap_2.
Qed.

End StringOrder.

Section Collect.
Context {H : Type}.
Implicit Types (r : Registry H) (s : State) (seen : gset string)
  (commands : list CommandDef) (kvs : list (string * RegisteredCommand H)).

Lemma built_commandsKeyed l r : built l r → commandsKeyed r.
Proof.
  induction 1 as [|l r s Hb IH|l r s def h r' Hb IH Hr].
  - intros sn hs c rc. simpl. by rewrite lookup_empty.
  - unfold commandsKeyed. by rewrite RegisterState_commandHandlers.
  - apply RegisterCommand_inv in Hr as (name & parent & _ & _ & Hc).
    intros sn hs c rc. rewrite Hc, lookup_insert.
    case_decide as Hsn; [|apply IH].
    intros [= <-]. rewrite lookup_insert.
    case_decide as Hcn; [by intros [= <-]|].
    destruct (commandHandlers r !! name) as [hs|] eqn:Hn; simpl.
    + by apply (IH name).
    + by rewrite lookup_empty.
Qed.

(** One pass of the inner loop over the bindings of one state. *)
Lemma visit_fold kvs :
  NoDup (kvs.*1) →
  (∀ k rc, (k, rc) ∈ kvs → Name (Def rc) = k) →
  ∀ seen commands,
    ∃ seen1 commands1,
      foldl visitCommand (seen, commands) kvs = (seen1, commands1)
      ∧ seen1 = seen ∪ list_to_set kvs.*1
      ∧ (∀ d, d ∈ commands1 ↔
              d ∈ commands ∨ (∃ k rc, (k, rc) ∈ kvs ∧ (k ∉ seen) ∧ Def rc = d))
      ∧ (NoDup (Name <$> commands) →
         (∀ d, d ∈ commands → Name d ∈ seen) →
         NoDup (Name <$> commands1)
         ∧ ∀ d, d ∈ commands1 → Name d ∈ seen1).
Proof.
  induction kvs as [|[k rc] kvs IH]; intros Hnd Hkey seen commands.
  - exists seen, commands. split_and!; [done|set_solver|set_solver|done].
  - rewrite fmap_cons in Hnd. apply NoDup_cons in Hnd as [Hk Hnd]. simpl in Hk.
    assert (∀ k' rc', (k', rc') ∈ kvs → k' ≠ k) as Hother.
    { intros k' rc' Hin ->. apply Hk.
      by apply (list_elem_of_fmap_2 fst) in Hin. }
    assert (Name (Def rc) = k) as Hname by (apply Hkey; left).
    assert (∀ k' rc', (k', rc') ∈ kvs → Name (Def rc') = k') as Hkey'
      by (intros ???; apply Hkey; by right).
    simpl. destruct (decide (k ∈ seen)) as [Hin|Hin].
    + destruct (IH Hnd Hkey' seen commands)
        as (seen1 & commands1 & -> & -> & Hmem & Hdup).
      exists (seen ∪ list_to_set kvs.*1), commands1.
      split_and!; [done|set_solver| |done].
      intros d. rewrite Hmem. setoid_rewrite elem_of_cons. naive_solver.
    + destruct (IH Hnd Hkey' ({[k]} ∪ seen) (commands ++ [Def rc]))
        as (seen1 & commands1 & -> & -> & Hmem & Hdup).
      exists ({[k]} ∪ seen ∪ list_to_set kvs.*1), commands1.
      split_and!; [done|set_solver| |].
      * intros d. rewrite Hmem, elem_of_app, list_elem_of_singleton.
        setoid_rewrite elem_of_cons. split.
        -- intros [[?| ->]|(k' & rc' & Hin' & Hk' & <-)]; [by left|..].
           ++ right. exists k, rc. naive_solver.
           ++ right. exists k', rc'. split_and!; [by right|set_solver|done].
        -- intros [?|(k' & rc' & [[= -> ->]|Hin'] & Hk' & <-)];
             [by left; left|by left; right|].
           right. exists k', rc'. split_and!; [done| |done].
           specialize (Hother _ _ Hin'). set_solver.
      * intros Hnd0 Hseen0. apply Hdup.
        -- rewrite fmap_app. apply NoDup_app. split_and!; [done| |apply NoDup_singleton].
           intros n Hn. simpl. rewrite list_elem_of_singleton. intros ->.
           apply list_elem_of_fmap in Hn as (d & Hd & Hdin).
           apply Hin. rewrite <- Hname, Hd. by apply Hseen0.
        -- intros d [Hd| ->%list_elem_of_singleton]%elem_of_app;
             [specialize (Hseen0 _ Hd)|]; set_solver.
Qed.

Lemma binding_step r name parent c :
  binding r (NewState name parent) c =
  match commandHandlers r !! name with
  | Some stateHandlers => stateHandlers !! c
  | None => None
  end.
Proof. done. Qed.

Section WithRange.
Variable rangeMap :
  gmap string (RegisteredCommand H) → list (string * RegisteredCommand H).
Hypothesis rangeMap_perm : rangeMap_ok rangeMap.

Lemma rangeMap_elem (hs : gmap string (RegisteredCommand H)) k rc :
  (k, rc) ∈ rangeMap hs ↔ hs !! k = Some rc.
Proof. rewrite (rangeMap_perm hs). apply elem_of_map_to_list. Qed.

Lemma rangeMap_NoDup (hs : gmap string (RegisteredCommand H)) :
  NoDup ((rangeMap hs).*1).
Proof. rewrite (rangeMap_perm hs). apply NoDup_fst_map_to_list. Qed.

Lemma rangeMap_keys (hs : gmap string (RegisteredCommand H)) k :
  k ∈ (list_to_set (rangeMap hs).*1 : gset string) ↔ is_Some (hs !! k).
Proof.
  rewrite elem_of_list_to_set, list_elem_of_fmap. split.
  - intros ([k' rc] & -> & Hin). apply rangeMap_elem in Hin. by eexists.
  - intros [rc Hrc]. exists (k, rc). split; [done|]. by apply rangeMap_elem.
Qed.

(** The whole walk, from any intermediate [seen] and [commands]. *)
Lemma collectCommands_spec r :
  commandsKeyed r →
  ∀ s seen commands,
    ∃ seen' commands',
      collectCommands rangeMap r s (seen, commands) = (seen', commands')
      ∧ (∀ d, d ∈ commands' ↔
              d ∈ commands
              ∨ ((Name d ∉ seen)
                 ∧ ∃ rc, closest_binding r s (Name d) rc ∧ Def rc = d))
      ∧ (NoDup (Name <$> commands) →
         (∀ d, d ∈ commands → Name d ∈ seen) →
         NoDup (Name <$> commands')).
Proof.
  intros Hkeyed. induction s as [|name parent IH]; intros seen commands.
  - exists seen, commands. split_and!; [done| |done].
    intros d. split; [by left|].
    intros [?|(_ & rc & ?%closest_binding_nil & _)]; done.
  - simpl. destruct (commandHandlers r !! name) as [hs|] eqn:Hn.
    + destruct (visit_fold (rangeMap hs) (rangeMap_NoDup hs)) with
        (seen := seen) (commands := commands)
        as (seen1 & commands1 & -> & Hseen1 & Hmem1 & Hdup1).
      { intros k rc Hin%rangeMap_elem. by eapply Hkeyed. }
      destruct (IH seen1 commands1) as (seen' & commands' & -> & Hmem & Hdup).
      exists seen', commands'. split_and!; [done| |].
      * intros d. rewrite Hmem, Hmem1.
        setoid_rewrite closest_binding_step.
        setoid_rewrite binding_step. rewrite Hn.
        setoid_rewrite rangeMap_elem.
        assert (Name d ∉ seen1 ↔ (Name d ∉ seen) ∧ hs !! Name d = None) as ->.
        { rewrite Hseen1, not_elem_of_union, rangeMap_keys.
          by rewrite eq_None_not_Some. }
        split.
        -- intros [[?|(k & rc & Hk & Hns & <-)]|[[Hns Hnone] (rc & Hc & <-)]];
             [by left|..].
           ++ right. assert (Name (Def rc) = k) as Hnm by (by eapply Hkeyed).
              rewrite Hnm. eauto 10.
           ++ right. eauto 10.
        -- intros [?|(Hns & rc & [Hb|[Hb Hc]] & <-)]; [by left; left|..].
           ++ left. right. eauto 10.
           ++ right. eauto 10.
      * intros Hnd0 Hs0. destruct (Hdup1 Hnd0 Hs0). auto.
    + destruct (IH seen commands) as (seen' & commands' & -> & Hmem & Hdup).
      exists seen', commands'. split_and!; [done| |done].
      intros d. rewrite Hmem. setoid_rewrite closest_binding_step.
      setoid_rewrite binding_step. rewrite Hn. naive_solver.
Qed.

End WithRange.

End Collect.

Section Enumerate.
Context {H : Type}.
Implicit Types (r : Registry H) (s : State).

Lemma RegisterCommand_commute r name1 parent1 def1 (h1 : H)
    name2 parent2 def2 (h2 : H) :
  (name1, Name def1) ≠ (name2, Name def2) →
  (RegisterCommand r (NewState name1 parent1) def1 h1
     ≫= λ r1, RegisterCommand r1 (NewState name2 parent2) def2 h2)
  = (RegisterCommand r (NewState name2 parent2) def2 h2
       ≫= λ r2, RegisterCommand r2 (NewState name1 parent1) def1 h1).
Proof.
  intros Hne. rewrite !RegisterCommand_returns. simpl.
  rewrite !RegisterCommand_returns. simpl. do 2 f_equal.
  destruct (decide (name1 = name2)) as [->|Hn].
  - rewrite !lookup_insert_eq, !insert_insert_eq. simpl.
    f_equal. apply insert_insert_ne. congruence.
  - rewrite !lookup_insert_ne by done.
    by apply insert_insert_ne.
Qed.

Lemma FindAvailableCommands_props rangeMap sortSlice l r s :
  rangeMap_ok rangeMap → sortSlice_ok sortSlice → built l r →
  (∀ d, d ∈ FindAvailableCommands rangeMap sortSlice r s ↔
        ∃ rc, closest_binding r s (Name d) rc ∧ Def rc = d)
  ∧ NoDup (Name <$> FindAvailableCommands rangeMap sortSlice r s)
  ∧ StronglySorted (λ a b, lessByName a b = true)
      (FindAvailableCommands rangeMap sortSlice r s).
Proof.
  intros Hrange Hsort Hb. apply built_commandsKeyed in Hb.
  destruct (collectCommands_spec rangeMap Hrange r Hb s ∅ [])
    as (seen' & commands' & Heq & Hmem & Hdup).
  unfold FindAvailableCommands. rewrite Heq. simpl.
  destruct (Hsort commands') as [Hperm Hsorted].
  assert (NoDup (Name <$> sortSlice lessByName commands')) as Hnd.
  { rewrite Hperm. apply Hdup; [constructor|]. by intros d ?%not_elem_of_nil. }
  split_and!; [|done|by apply sorted_distinct_ascending].
  intros d. rewrite Hperm, Hmem. split.
  - intros [?%not_elem_of_nil|[_ ?]]; done.
  - intros ?. right. split; [set_solver|done].
Qed.

(** C7.  For a registry as programs build it, whatever order the maps
    are ranged over and whatever [sort.Slice] does with equal keys,
    [FindAvailableCommands r s] holds exactly the definitions of the
    closest bindings of the names bound along the chain of [s], no name
    twice, in strictly ascending order of name; the result is the
    same for every iteration order and sorting routine, and registering
    two distinct bindings in either order gives the same registry. *)
Theorem FindAvailableCommands_sorted_closest rangeMap sortSlice l r s :
  rangeMap_ok rangeMap → sortSlice_ok sortSlice → built l r →
  (∀ d, d ∈ FindAvailableCommands rangeMap sortSlice r s ↔
        ∃ rc, closest_binding r s (Name d) rc ∧ Def rc = d)
  ∧ NoDup (Name <$> FindAvailableCommands rangeMap sortSlice r s)
  ∧ StronglySorted (λ a b, String.ltb (Name a) (Name b) = true)
      (FindAvailableCommands rangeMap sortSlice r s)
  ∧ (∀ rangeMap' sortSlice',
       rangeMap_ok rangeMap' → sortSlice_ok sortSlice' →
       FindAvailableCommands rangeMap' sortSlice' r s
       = FindAvailableCommands rangeMap sortSlice r s)
  ∧ (∀ r0 name1 parent1 def1 (h1 : H) name2 parent2 def2 (h2 : H),
       (name1, Name def1) ≠ (name2, Name def2) →
       (RegisterCommand r0 (NewState name1 parent1) def1 h1
          ≫= λ r1, RegisterCommand r1 (NewState name2 parent2) def2 h2)
       = (RegisterCommand r0 (NewState name2 parent2) def2 h2
            ≫= λ r2, RegisterCommand r2 (NewState name1 parent1) def1 h1)).
Proof.
  intros Hrange Hsort Hb.
  destruct (FindAvailableCommands_props rangeMap sortSlice l r s)
    as (Hmem & Hnd & Hss); [done..|].
  split_and!; [done|done|done| |].
  - intros rangeMap' sortSlice' Hrange' Hsort'.
    destruct (FindAvailableCommands_props rangeMap' sortSlice' l r s)
      as (Hmem' & Hnd' & Hss'); [done..|].
    eapply (StronglySorted_unique_strong (λ a b, lessByName a b = true));
      [|done|done|].
    + intros a b _ _ Hab Hba. unfold lessByName in *.
      by destruct (ltb_asymmetric _ _ Hab Hba).
    + apply NoDup_Permutation; [by eapply NoDup_fmap_1..|].
      intros d. by rewrite Hmem, Hmem'.
  - intros. by apply RegisterCommand_commute.
Qed.

End Enumerate.

(** * The statements on the demo application *)

Lemma Demo_family_uniqueNames : uniqueNames (familyOf [Demo.Ready]).
Proof.
  intros name p p' H1 H2. unfold familyOf in H1, H2. cbn in H1, H2.
  rewrite !elem_of_cons, elem_of_nil in H1, H2. naive_solver.
Qed.

Lemma C8_witness :
  stored (H := Demo.handler) (RegisterState NewRegistry Demo.Ready) Demo.Root
  ∧ present (H := Demo.handler) (RegisterState NewRegistry Demo.Ready) Demo.Root.
Proof.
  apply (proj2 (proj2 (proj2 (proj2 RegisterState_registers_ancestors)))
           [Demo.Ready] _ (built_state _ _ _ built_new)
           Demo_family_uniqueNames Demo.Ready Demo.Root).
  - apply list_elem_of_here.
  - cbn. apply list_elem_of_further, list_elem_of_here.
Defined.

Lemma C8_counterexample :
  ¬ (∀ (l : list State) (r : Registry Demo.handler),
       built l r → ∀ s a, s ∈ l → a ∈ chain s → present r a).
Proof.
  intros Hall.
  specialize (Hall [Demo.C; Demo.LoneB] _
                (built_state _ _ Demo.C (built_state _ _ Demo.LoneB built_new))
                Demo.C Demo.A).
  destruct Hall as [x Hx].
  - apply list_elem_of_here.
  - cbn. do 2 apply list_elem_of_further. apply list_elem_of_here.
  - vm_compute in Hx. discriminate.
Qed.

Lemma Demo_bind_built l r name parent d h :
  built l r → built l (Demo.bind r (NewState name parent) d h).
Proof.
  intros Hb.
  apply (built_command l r (NewState name parent) d h _ Hb). reflexivity.
Qed.

Lemma Demo_registry1_built : built [Demo.Finished; Demo.Ready] Demo.registry1.
Proof.
  unfold Demo.registry1. repeat apply Demo_bind_built.
  apply built_state, built_state, built_new.
Qed.

Example Demo_Execute_inc :
  Execute Demo.call tt Demo.machine1 (NewCommand "inc" [])
  = Returned (Demo.setData Demo.machine1 1, ("Count is now larger", None)).
Proof. vm_compute. reflexivity. Qed.

Example Demo_Execute_finish :
  Execute Demo.call tt Demo.machine1 (NewCommand "finish" [])
  = Returned (TransitionTo Demo.machine1 Demo.Finished, ("bye", None)).
Proof. vm_compute. reflexivity. Qed.

Example Demo_Execute_inherited :
  Execute Demo.call tt (TransitionTo Demo.machine1 Demo.Finished) (NewCommand "help" [])
  = Returned (TransitionTo Demo.machine1 Demo.Finished, ("usage", None)).
Proof. vm_compute. reflexivity. Qed.


(** The twin of [Ready] has the name of the current state and another
    parent: no transition, the machine is returned as it was. *)
Example Demo_Execute_again :
  Demo.ReadyTwin ≠ CurrentState Demo.machine1
  ∧ Execute Demo.call tt Demo.machine1 (NewCommand "again" [])
    = Returned (Demo.machine1, ("again", None)).
Proof. split; [done|]. vm_compute. reflexivity. Qed.

Lemma C3_witness :
  Execute Demo.call tt Demo.machine1 (NewCommand "launch" [])
    = Returned (Demo.machine1,
                ("", Some (Errorf (commandNotAvailableText "launch" "Ready"))))
  ∧ mentions (commandNotAvailableText "launch" "Ready") "launch"
  ∧ mentions (commandNotAvailableText "launch" "Ready") "Ready".
Proof.
  apply (Execute_command_not_available Demo.call tt Demo.machine1
           (NewCommand "launch" []) "Ready").
  - reflexivity.
  - apply findCommandHandler_None. vm_compute. reflexivity.
Defined.

Lemma C3_counterexample :
  NewMachine Demo.registry1 nilState 0 = inl Demo.machineNil
  ∧ unbound (registry Demo.machineNil) (CurrentState Demo.machineNil) "launch"
  ∧ Execute Demo.call tt Demo.machineNil (NewCommand "launch" []) = Panicked.
Proof. split_and!; [reflexivity|constructor|reflexivity]. Qed.

Lemma C4_witness :
  ∃ snapshot m',
    GetSnapshot Demo.machine1 = Returned snapshot
    ∧ NewMachineFromSnapshot Demo.registry1 snapshot = inl m'
    ∧ State_Name (CurrentState m') = Returned "Ready"
    ∧ Data m' = Data Demo.machine1.
Proof.
  apply (snapshot_round_trip [Demo.Finished; Demo.Ready] Demo.registry1
           Demo.machine1 "Ready" Demo.Root Demo_registry1_built).
  - reflexivity.
  - vm_compute. eexists. reflexivity.
Defined.

Lemma C4_counterexample :
  NewMachine NewRegistry Demo.Ready 7 = inl Demo.machineUnregistered
  ∧ GetSnapshot Demo.machineUnregistered
      = Returned {| CurrentStateName := "Ready"; Snapshot_Data := 7 |}
  ∧ NewMachineFromSnapshot (registry Demo.machineUnregistered)
        {| CurrentStateName := "Ready"; Snapshot_Data := 7 |}
      = inr (Errorf "state 'Ready' not found in registry")
  ∧ ¬ (∃ m', NewMachineFromSnapshot (registry Demo.machineUnregistered)
               {| CurrentStateName := "Ready"; Snapshot_Data := 7 |} = inl m').
Proof.
  split_and!; [reflexivity|reflexivity|reflexivity|].
  intros [m' Hm']. vm_compute in Hm'. discriminate.
Qed.

Lemma C6_witness :
  Execute Demo.call tt Demo.machine1 (NewCommand "boom" [])
  = Returned (Demo.setData Demo.machine1 1,
              ("partial", Some (Errorf "counter overflow"))).
Proof.
  apply (Execute_handler_error Demo.call tt Demo.machine1 (NewCommand "boom" [])
           Demo.overflow (Demo.setData Demo.machine1 1)
           {| Output := "partial"; NextState := Demo.Finished |}
           (Errorf "counter overflow")).
  - vm_compute. reflexivity.
  - reflexivity.
Defined.

Lemma C9_counterexample :
  NewMachine Demo.registry1 nilState 0 = inl Demo.machineNil
  ∧ GetSnapshot Demo.machineNil = Panicked.
Proof. split; reflexivity. Qed.

Lemma Demo_rangeMap_ok : rangeMap_ok Demo.rangeMap.
Proof. intros m. done. Qed.

Lemma Demo_rangeMapBackwards_ok : rangeMap_ok Demo.rangeMapBackwards.
Proof. intros m. unfold Demo.rangeMapBackwards. by rewrite reverse_Permutation. Qed.

Lemma Demo_sortSlice_ok : sortSlice_ok Demo.sortSlice.
Proof.
  assert (Total (λ a b : CommandDef, lessByName b a = false)) as Htot.
  { intros a b. unfold lessByName.
    destruct (String.ltb (Name b) (Name a)) eqn:Hba; [|by left].
    destruct (String.ltb (Name a) (Name b)) eqn:Hab; [|by right].
    by destruct (ltb_asymmetric _ _ Hab Hba). }
  intros l. unfold Demo.sortSlice. split.
  - apply merge_sort_Permutation.
  - by apply Sorted_merge_sort.
Qed.

Example Demo_FindAvailableCommands :
  FindAvailableCommands Demo.rangeMap Demo.sortSlice Demo.registry1 Demo.Ready
  = [Demo.def "again"; Demo.def "boom"; Demo.def "finish";
     {| Name := "help"; Args := "[topic]"; Description := "" |};
     Demo.def "inc"].
Proof. vm_compute. reflexivity. Qed.

Example Demo_FindAvailableCommands_backwards :
  FindAvailableCommands Demo.rangeMapBackwards Demo.sortSlice
    Demo.registry1 Demo.Ready
  = FindAvailableCommands Demo.rangeMap Demo.sortSlice Demo.registry1 Demo.Ready.
Proof. vm_compute. reflexivity. Qed.

Example Demo_FindAvailableCommands_parent :
  FindAvailableCommands Demo.rangeMap Demo.sortSlice Demo.registry1 Demo.Finished
  = [Demo.def "help"].
Proof. vm_compute. reflexivity. Qed.

Lemma C7_witness :
  NoDup (Name <$> FindAvailableCommands Demo.rangeMap Demo.sortSlice
                    Demo.registry1 Demo.Ready)
  ∧ StronglySorted (λ a b, String.ltb (Name a) (Name b) = true)
      (FindAvailableCommands Demo.rangeMap Demo.sortSlice
         Demo.registry1 Demo.Ready).
Proof.
  destruct (FindAvailableCommands_sorted_closest
              Demo.rangeMap Demo.sortSlice _ Demo.registry1 Demo.Ready
              Demo_rangeMap_ok Demo_sortSlice_ok Demo_registry1_built)
    as (_ & Hnd & Hs & _).
  exact (conj Hnd Hs).
Defined.

Example Demo_findCommandHandler :
  findCommandHandler Demo.registry1 Demo.Ready "help" = Some Demo.helpTopic
  ∧ findCommandHandler Demo.registry1 Demo.Finished "help" = Some Demo.help
  ∧ findCommandHandler Demo.registry1 Demo.Root "inc" = None
  ∧ findCommandHandler Demo.registry1 Demo.Ready "launch" = None.
Proof. vm_compute. done. Qed.

Example Demo_NewMachineFromSnapshot :
  NewMachineFromSnapshot Demo.registry1
    {| CurrentStateName := "Ready"; Snapshot_Data := 3 |}
  = inl {| CurrentState := Demo.Ready; StateStack := [Demo.Root; Demo.Ready];
           Data := 3; registry := Demo.registry1 |}
  ∧ NewMachineFromSnapshot Demo.registry1
      {| CurrentStateName := "Root"; Snapshot_Data := 3 |}
    = inl {| CurrentState := Demo.Root; StateStack := [Demo.Root];
             Data := 3; registry := Demo.registry1 |}
  ∧ NewMachineFromSnapshot Demo.registry1
      {| CurrentStateName := "Gone"; Snapshot_Data := 3 |}
    = inr (Errorf "state 'Gone' not found in registry").
Proof. vm_compute. done. Qed.

Example Demo_NewMachine_GetSnapshot :
  NewMachine NewRegistry Demo.Ready 7 = inl Demo.machineUnregistered
  ∧ GetSnapshot Demo.machineUnregistered
    = Returned {| CurrentStateName := "Ready"; Snapshot_Data := 7 |}.
Proof. split; reflexivity. Qed.

Lemma C10_witness :
  states Demo.registryNoStates = ∅
  ∧ is_Some (findCommandHandler Demo.registryNoStates Demo.Ready "help").
Proof.
  apply (proj2 (proj2 (proj2 dispatch_independent_of_state_set))
           NewRegistry Demo.Root (Demo.def "help") Demo.help
           Demo.registryNoStates Demo.Ready built_new).
  - reflexivity.
  - cbn. apply list_elem_of_further, list_elem_of_here.
Defined.

Example Demo_dispatch_without_states :
  findCommandHandler Demo.registryNoStates Demo.Ready "help" = Some Demo.help.
Proof. vm_compute. reflexivity. Qed.

(** * Further properties of the package *)

(** ** Paths *)

Section PathShape.
Implicit Types (s a : State) (path : list State).

Lemma descends_nil_inv path : descends path nilState → path = [].
Proof. by inversion 1. Qed.

Lemma descends_head path name parent :
  descends path (NewState name parent) →
  ∃ rootName, head path = Some (NewState rootName nilState).
Proof.
  remember (NewState name parent) as s eqn:Hs. intros Hd. revert name parent Hs.
  induction Hd as [|path name' parent' Hd IH]; intros name parent Hs; [done|].
  destruct parent' as [|pname pparent].
  - apply descends_nil_inv in Hd as ->. by exists name'.
  - destruct (IH pname pparent eq_refl) as [rootName Hhead].
    exists rootName. destruct path; [done|]. done.
Qed.

Lemma chain_suffix a s : a ∈ chain s → ∃ pre, chain s = pre ++ chain a.
Proof.
  induction s as [|name parent IH]; simpl; [by intros ?%not_elem_of_nil|].
  intros [->|Hin]%elem_of_cons.
  - by exists [].
  - destruct (IH Hin) as [pre ->]. by exists (NewState name parent :: pre).
Qed.

(** X1.  [buildStatePath] returns the states of the parent chain in
    reverse visiting order, as many as the chain has: for a state that
    is not nil the path starts at a state without parent, ends at the
    target, and every state is followed by one of its children; for nil
    the path is empty. *)
Theorem buildStatePath_root_to_target s :
  buildStatePath s = reverse (chain s)
  ∧ length (buildStatePath s) = length (chain s)
  ∧ descends (buildStatePath s) s
  ∧ (s = nilState → buildStatePath s = [])
  ∧ (∀ name parent,
       s = NewState name parent →
       last (buildStatePath s) = Some s
       ∧ ∃ rootName,
           head (buildStatePath s) = Some (NewState rootName nilState)).
Proof.
  split_and!.
  - apply buildStatePath_reverse.
  - by rewrite buildStatePath_reverse, length_reverse.
  - apply buildStatePath_descends.
  - by intros ->.
  - intros name parent ->. split; [apply buildStatePath_last|].
    eapply descends_head, buildStatePath_descends.
Qed.

End PathShape.

(** ** Bindings and the state set *)

Section Bindings.
Context {H : Type}.
Implicit Types (r : Registry H) (s a b : State) (c : string).

Lemma RegisterCommand_binding_other r a def h r' b c :
  RegisterCommand r a def h = Returned r' →
  State_Name b ≠ State_Name a ∨ c ≠ Name def →
  binding r' b c = binding r b c.
Proof.
  intros (name & parent & -> & _ & Hc)%RegisterCommand_inv Hne.
  destruct b as [|bname bparent]; [done|]. simpl. rewrite Hc.
  destruct (decide (bname = name)) as [->|Hn].
  - rewrite lookup_insert_eq. destruct Hne as [?|Hne]; [done|].
    rewrite lookup_insert_ne by done.
    by destruct (commandHandlers r !! name).
  - by rewrite lookup_insert_ne.
Qed.

Lemma RegisterCommand_binding_same r a def h r' b :
  RegisterCommand r a def h = Returned r' →
  State_Name b = State_Name a →
  binding r' b (Name def) = Some {| Def := def; Handler := h |}.
Proof.
  intros Hr Hn. pose proof (RegisterCommand_binding _ _ _ _ _ Hr) as Hb.
  apply RegisterCommand_inv in Hr as (name & parent & -> & _ & _).
  destruct b as [|bname bparent]; [done|]. simpl in Hn. by simplify_eq.
Qed.

(** X2.  Registering a command again under the same state and command
    name replaces the binding: lookup returns the second handler, and the
    registry is the one obtained by registering the second alone. *)
Theorem RegisterCommand_last_write_wins r s def1 h1 def2 h2 r1 r2 :
  RegisterCommand r s def1 h1 = Returned r1 →
  RegisterCommand r1 s def2 h2 = Returned r2 →
  Name def1 = Name def2 →
  binding r2 s (Name def1) = Some {| Def := def2; Handler := h2 |}
  ∧ findCommandHandler r2 s (Name def1) = Some h2
  ∧ RegisterCommand r s def2 h2 = Returned r2.
Proof.
  intros H1 H2 Hn.
  pose proof (RegisterCommand_binding _ _ _ _ _ H2) as Hb.
  rewrite <- Hn in Hb. split_and!; [done| |].
  - destruct s as [|name parent]; [done|].
    by rewrite findCommandHandler_step, Hb.
  - destruct s as [|name parent]; [done|].
    apply RegisterCommand_inv in H1 as (? & ? & [= <- <-] & Hs1 & Hc1).
    apply RegisterCommand_inv in H2 as (? & ? & [= <- <-] & Hs2 & Hc2).
    rewrite RegisterCommand_returns. destruct r2 as [st2 ch2]. simpl in *.
    rewrite Hs2, Hs1, Hc2, Hc1.
    rewrite lookup_insert_eq, insert_insert_eq. simpl.
    by rewrite Hn, insert_insert_eq.
Qed.

(** X3.  [RegisterCommand] changes one binding and no other: afterwards
    every state with the name of the given state (whatever its parent)
    has the new binding for the command name, every other pair of state
    and command name has the binding it had, and the state set is the
    same. *)
Theorem RegisterCommand_changes_one_binding r a def h r' :
  RegisterCommand r a def h = Returned r' →
  states r' = states r
  ∧ (∀ b, State_Name b = State_Name a →
          binding r' b (Name def) = Some {| Def := def; Handler := h |})
  ∧ (∀ b c, State_Name b ≠ State_Name a ∨ c ≠ Name def →
            binding r' b c = binding r b c).
Proof.
  intros Hr. split_and!.
  - by apply RegisterCommand_inv in Hr as (? & ? & _ & -> & _).
  - intros b. by eapply RegisterCommand_binding_same.
  - intros b c. by eapply RegisterCommand_binding_other.
Qed.

Lemma RegisterState_new_entries r s k x :
  states (RegisterState r s) !! k = Some x →
  states r !! k = Some x ∨ (x ∈ chain s ∧ State_Name x = Returned k).
Proof.
  revert r. induction s as [|name parent IH]; intros r; [by left|].
  simpl. destruct (states r !! name) eqn:Hn; [by left|].
  intros [Hk|[Hin Hx]]%IH.
  - simpl in Hk. rewrite lookup_insert in Hk. case_decide as Hd.
    + injection Hk as <-. subst k. right. split; [left|done].
    + by left.
  - right. split; [by right|done].
Qed.

(** X4.  [RegisterState] is idempotent: a second call on the same state
    changes nothing, whatever the registry held before the first. *)
Theorem RegisterState_idempotent r s :
  RegisterState (RegisterState r s) s = RegisterState r s.
Proof.
  destruct s as [|name parent]; [done|].
  destruct (RegisterState_present r name parent) as [x Hx].
  by eapply RegisterState_known.
Qed.

(** X5.  [RegisterState] only adds: every entry of the state set is kept,
    every new entry is a state of the chain of the given state filed
    under its own name, and the command bindings are not touched. *)
Theorem RegisterState_only_adds_chain r s :
  (∀ k x, states r !! k = Some x → states (RegisterState r s) !! k = Some x)
  ∧ (∀ k x, states (RegisterState r s) !! k = Some x →
            states r !! k = Some x
            ∨ (x ∈ chain s ∧ State_Name x = Returned k))
  ∧ commandHandlers (RegisterState r s) = commandHandlers r.
Proof.
  split_and!.
  - intros k x. apply RegisterState_preserves.
  - intros k x. apply RegisterState_new_entries.
  - apply RegisterState_commandHandlers.
Qed.

Lemma built_family l r k x :
  built l r → states r !! k = Some x → x ∈ familyOf l.
Proof.
  intros Hb. revert k x.
  induction Hb as [|l r s Hb IH|l r s def h r' Hb IH Hr]; intros k x.
  - simpl. by rewrite lookup_empty.
  - intros [Hk|[Hin _]]%RegisterState_new_entries; rewrite familyOf_cons.
    + apply elem_of_app. right. by eapply IH.
    + apply elem_of_app. by left.
  - apply RegisterCommand_inv in Hr as (? & ? & _ & -> & _). apply IH.
Qed.

(** X6.  In a registry built by [RegisterState] and [RegisterCommand],
    [GetStateByName] never returns nil and never a state of another
    name: what it finds under a name is a state of that name, one of the
    states passed to [RegisterState] or one of their ancestors. *)
Theorem GetStateByName_sound l r name s :
  built l r →
  GetStateByName r name = Some s →
  State_Name s = Returned name ∧ s ∈ familyOf l.
Proof.
  intros Hb Hs. unfold GetStateByName in Hs. split.
  - destruct (built_named _ _ _ _ Hb Hs) as [p ->]. done.
  - by eapply built_family.
Qed.

Lemma RegisterState_states_only r s (ch : gmap string (gmap string (RegisteredCommand H))) :
  RegisterState {| states := states r; commandHandlers := ch |} s
  = {| states := states (RegisterState r s); commandHandlers := ch |}.
Proof.
  revert r. induction s as [|name parent IH]; intros r; [done|].
  simpl. destruct (states r !! name) eqn:Hn; [done|].
  by rewrite <- IH.
Qed.

(** X7.  [RegisterState] and [RegisterCommand] commute: registering a
    state before or after binding a command gives the same registry (and
    both orders panic when the command is bound on nil). *)
Theorem RegisterState_RegisterCommand_commute r s a def h :
  RegisterCommand (RegisterState r s) a def h
  = (r' ← RegisterCommand r a def h; mret (RegisterState r' s)).
Proof.
  destruct a as [|name parent]; [done|].
  rewrite !RegisterCommand_returns. simpl. unfold mret, outcome_ret. f_equal.
  rewrite RegisterState_commandHandlers.
  set (ch := <[name := _]> (commandHandlers r)).
  by rewrite (RegisterState_states_only r s ch).
Qed.

End Bindings.

(** ** Inheritance and listing *)

Section Inheritance.
Context {H : Type}.
Implicit Types (r : Registry H) (s a : State) (c : string).

Lemma findCommandHandler_skip r c a : ∀ s pre,
  chain s = pre ++ chain a →
  Forall (λ b, binding r b c = None) pre →
  findCommandHandler r s c = findCommandHandler r a c.
Proof.
  induction s as [|name parent IH]; intros pre Hch Hpre.
  - destruct pre; [|done]. destruct a; [done|done].
  - destruct pre as [|b pre].
    + simpl in Hch. destruct a as [|aname aparent]; [done|].
      simpl in Hch. by injection Hch as -> ->.
    + simpl in Hch. injection Hch as <- Hch.
      apply Forall_cons in Hpre as [Hb Hpre].
      rewrite findCommandHandler_step, Hb. by eapply IH.
Qed.

(** X8.  Behaviour is inherited down the hierarchy: a command that is
    found from a state [a] is found from every state that has [a] on its
    chain, and it resolves to the very same handler unless one of the
    states below [a] binds the name itself. *)
Theorem findCommandHandler_inherited r s a c :
  a ∈ chain s →
  (is_Some (findCommandHandler r a c) → is_Some (findCommandHandler r s c))
  ∧ (∀ pre, chain s = pre ++ chain a →
            Forall (λ b, binding r b c = None) pre →
            findCommandHandler r s c = findCommandHandler r a c).
Proof.
  intros Ha. split.
  - intros [h (rc & (pre & b & post & Hch & _ & Hb) & _)%findCommandHandler_Some].
    destruct (chain_suffix _ _ Ha) as [pre' Hs].
    eapply (binding_is_Some_found r s b); [|by rewrite Hb].
    rewrite Hs, Hch. set_solver.
  - intros pre. apply findCommandHandler_skip.
Qed.

End Inheritance.

Section Listing.
Context {H : Type}.
Implicit Types (r : Registry H) (s : State) (c : string).

Lemma closest_binding_keyed r s c rc :
  commandsKeyed r → closest_binding r s c rc → Name (Def rc) = c.
Proof.
  intros Hk (pre & a & post & _ & _ & Hb).
  destruct a as [|name parent]; [done|]. simpl in Hb.
  destruct (commandHandlers r !! name) as [hs|] eqn:Hn; [|done].
  by eapply Hk.
Qed.

Lemma listing_names rangeMap sortSlice l r s c :
  rangeMap_ok rangeMap → sortSlice_ok sortSlice → built l r →
  c ∈ Name <$> FindAvailableCommands rangeMap sortSlice r s
  ↔ is_Some (findCommandHandler r s c).
Proof.
  intros Hrange Hsort Hb.
  destruct (FindAvailableCommands_props rangeMap sortSlice l r s)
    as (Hmem & _ & _); [done..|].
  pose proof (built_commandsKeyed _ _ Hb) as Hk.
  rewrite list_elem_of_fmap. split.
  - intros (d & -> & (rc & Hc & <-)%Hmem).
    exists (Handler rc). apply findCommandHandler_Some. eauto.
  - intros [h (rc & Hc & _)%findCommandHandler_Some].
    pose proof (closest_binding_keyed _ _ _ _ Hk Hc) as Hn.
    exists (Def rc). split; [done|]. apply Hmem. exists rc. by rewrite Hn.
Qed.

(** X9.  The listing and the dispatch agree: in a registry built by
    [RegisterState] and [RegisterCommand], a command name is among the
    names returned by [FindAvailableCommands] for a state exactly when
    [findCommandHandler] finds a handler for it from that state. *)
Theorem FindAvailableCommands_lists_what_dispatches
    rangeMap sortSlice l r s c :
  rangeMap_ok rangeMap → sortSlice_ok sortSlice → built l r →
  c ∈ Name <$> FindAvailableCommands rangeMap sortSlice r s
  ↔ is_Some (findCommandHandler r s c).
Proof. apply listing_names. Qed.

Lemma FindAvailableCommands_independent
    rangeMap sortSlice rangeMap' sortSlice' l r s :
  rangeMap_ok rangeMap → sortSlice_ok sortSlice →
  rangeMap_ok rangeMap' → sortSlice_ok sortSlice' →
  built l r →
  FindAvailableCommands rangeMap sortSlice r s
  = FindAvailableCommands rangeMap' sortSlice' r s.
Proof.
  intros Hrange Hsort Hrange' Hsort' Hb.
  destruct (FindAvailableCommands_props rangeMap sortSlice l r s)
    as (Hmem & Hnd & Hss); [done..|].
  destruct (FindAvailableCommands_props rangeMap' sortSlice' l r s)
    as (Hmem' & Hnd' & Hss'); [done..|].
  eapply (StronglySorted_unique_strong (λ a b, lessByName a b = true));
    [|done|done|].
  - intros a b _ _ Hab Hba. unfold lessByName in *.
    by destruct (ltb_asymmetric _ _ Hab Hba).
  - apply NoDup_Permutation; [by eapply NoDup_fmap_1..|].
    intros d. by rewrite Hmem, Hmem'.
Qed.

(** X10.  The listing is empty exactly when no command can be dispatched
    from the state; in particular it is empty for nil and for a registry
    without bindings. *)
Theorem FindAvailableCommands_empty rangeMap sortSlice l r s :
  rangeMap_ok rangeMap → sortSlice_ok sortSlice → built l r →
  (FindAvailableCommands rangeMap sortSlice r s = []
   ↔ ∀ c, findCommandHandler r s c = None)
  ∧ FindAvailableCommands rangeMap sortSlice r nilState = []
  ∧ (commandHandlers r = ∅ →
     FindAvailableCommands rangeMap sortSlice r s = []).
Proof.
  intros Hrange Hsort Hb.
  assert (∀ s', FindAvailableCommands rangeMap sortSlice r s' = []
                ↔ ∀ c, findCommandHandler r s' c = None) as Hiff.
  { intros s'. split.
    - intros Hnil c. apply eq_None_not_Some.
      rewrite <- (listing_names rangeMap sortSlice l r s' c) by done.
      rewrite Hnil. apply not_elem_of_nil.
    - intros Hnone.
      destruct (FindAvailableCommands rangeMap sortSlice r s') as [|d ds] eqn:Hl;
        [done|].
      assert (is_Some (findCommandHandler r s' (Name d))) as [h Hh].
      { apply (listing_names rangeMap sortSlice l); [done..|].
        rewrite Hl. rewrite fmap_cons. left. }
      by rewrite Hnone in Hh. }
  split_and!; [apply Hiff|by apply Hiff|].
  intros Hempty. apply Hiff. intros c.
  apply findCommandHandler_None. unfold unbound. apply Forall_forall.
  intros b _. destruct b as [|name parent]; [done|]. simpl.
  by rewrite Hempty, lookup_empty.
Qed.

End Listing.

(** ** Snapshots and the machine *)

Section MachineExtras.
Context {T H Ctx : Type}.
Variable callHandler :
  Ctx → H → Machine T H → Command
  → outcome (Machine T H * (Result * option error)).
Implicit Types (r : Registry H) (m : Machine T H) (s : State).

(** X11.  Restoring and saving again gives the snapshot back: the machine
    that [NewMachineFromSnapshot] builds from a snapshot, over a registry
    built by [RegisterState] and [RegisterCommand], has that very
    snapshot, holds the given registry, and its path is the path of its
    current state. *)
Theorem restore_then_snapshot l r (snapshot : Snapshot T) m :
  built l r →
  NewMachineFromSnapshot r snapshot = inl m →
  GetSnapshot m = Returned snapshot
  ∧ registry m = r
  ∧ consistent m.
Proof.
  intros Hb. unfold NewMachineFromSnapshot, GetStateByName.
  destruct (states r !! CurrentStateName snapshot) as [s|] eqn:Hs; [|done].
  intros [= <-]. destruct (built_named _ _ _ _ Hb Hs) as [p ->].
  split_and!; [|done|done]. by destruct snapshot.
Qed.

(** X12.  Saving and restoring gives the machine back: when the current
    state of a machine is the very state its registry holds under that
    name and the path is the path of the current state, restoring the
    machine's snapshot over its registry returns the machine itself. *)
Theorem snapshot_then_restore m :
  stored (registry m) (CurrentState m) →
  consistent m →
  ∃ snapshot,
    GetSnapshot m = Returned snapshot
    ∧ NewMachineFromSnapshot (registry m) snapshot = inl m.
Proof.
  intros Hst Hc. destruct m as [cur stack d r]. simpl in *.
  destruct cur as [|name parent]; [done|]. simpl in Hst.
  exists {| CurrentStateName := name; Snapshot_Data := d |}.
  split; [done|].
  unfold NewMachineFromSnapshot, GetStateByName, consistent in *. simpl in *.
  by rewrite Hst, Hc.
Qed.

(** X13.  [Execute] adds nothing of its own to what the handler does:
    when it returns, either no handler was found, and then the machine is
    untouched, the output empty and an error returned; or the output and
    the error are those of the handler, the data and the registry of the
    machine are as the handler left them, and on an error the whole
    machine is as the handler left it. *)
Theorem Execute_passes_through ctx m cmd m2 out err :
  Execute callHandler ctx m cmd = Returned (m2, (out, err)) →
  (findCommandHandler (registry m) (CurrentState m) (Command_Name cmd) = None
   ∧ m2 = m ∧ out = "" ∧ is_Some err)
  ∨ (∃ h m1 result,
       findCommandHandler (registry m) (CurrentState m) (Command_Name cmd)
         = Some h
       ∧ callHandler ctx h m cmd = Returned (m1, (result, err))
       ∧ out = Output result
       ∧ Data m2 = Data m1
       ∧ registry m2 = registry m1
       ∧ (is_Some err → m2 = m1)).
Proof.
  unfold Execute.
  destruct (findCommandHandler (registry m) (CurrentState m) (Command_Name cmd))
    as [h|] eqn:Hf.
  - destruct (callHandler ctx h m cmd) as [[m1 [result e]]|] eqn:Hc; [|done].
    simpl. intros Hex. right. exists h, m1, result.
    destruct e as [e|].
    + injection Hex as <- <- <-. by split_and!.
    + destruct (NextState result) as [|nextName nextParent]; simpl in Hex.
      * injection Hex as <- <- <-. split_and!; [done..|by intros [??]].
      * destruct (CurrentState m1) as [|curName curParent]; [done|].
        simpl in Hex. destruct (String.eqb nextName curName);
          injection Hex as <- <- <-; (split_and!; [done..|by intros [??]]).
  - destruct (CurrentState m) as [|name parent]; [done|]. simpl.
    intros [= <- <- <-]. left. by split_and!.
Qed.

(** X14.  Called with a command on a machine that holds a registry
    (neither pointer nil, as the types [Command] and [Registry] have
    it), [Execute] panics in these cases and no other: the machine has no
    current state; the handler panics; or the handler succeeds and asks
    for a next state after leaving the machine without current state. *)
Theorem Execute_panics_iff ctx m cmd :
  Execute callHandler ctx m cmd = Panicked
  ↔ CurrentState m = nilState
    ∨ ∃ h,
        findCommandHandler (registry m) (CurrentState m) (Command_Name cmd)
          = Some h
        ∧ (callHandler ctx h m cmd = Panicked
           ∨ ∃ m1 result,
               callHandler ctx h m cmd = Returned (m1, (result, None))
               ∧ NextState result ≠ nilState
               ∧ CurrentState m1 = nilState).
Proof.
  unfold Execute.
  destruct (findCommandHandler (registry m) (CurrentState m) (Command_Name cmd))
    as [h|] eqn:Hf.
  - assert (CurrentState m ≠ nilState) as Hcur.
    { intros Hnil. by rewrite Hnil in Hf. }
    split.
    + intros Hex. right. exists h. split; [done|].
      destruct (callHandler ctx h m cmd) as [[m1 [result e]]|]; [|by left].
      right. simpl in Hex. destruct e as [e|]; [done|].
      exists m1, result. split; [done|].
      destruct (NextState result) as [|nextName nextParent]; [done|].
      split; [done|].
      destruct (CurrentState m1) as [|curName curParent]; [done|].
      simpl in Hex. by destruct (String.eqb nextName curName).
    + intros [?|(h0 & [= <-] & [Hp|(m1 & result & Hc & Hn & Hc1)])];
        [done|by rewrite Hp|].
      rewrite Hc. simpl.
      destruct (NextState result) as [|nextName nextParent]; [done|].
      by rewrite Hc1.
  - destruct (CurrentState m) as [|name parent]; simpl.
    + split; [by left|done].
    + split; [done|]. intros [?|(h & ? & _)]; done.
Qed.

(** X15.  The machine stays usable across [Execute]: on a machine that
    has a current state and whose path is the path of that state, when
    the handler that [Execute] resolves for the command keeps both so on
    this call (one that only writes the data, say; nothing is asked of
    the other handlers, nor when no handler is found), the machine
    [Execute] returns has a current state, its path is the path of that
    state, and [GetSnapshot] returns on it. *)
Theorem Execute_keeps_consistent ctx m cmd m2 out :
  consistent m →
  CurrentState m ≠ nilState →
  (∀ h m1 x,
     findCommandHandler (registry m) (CurrentState m) (Command_Name cmd)
       = Some h →
     callHandler ctx h m cmd = Returned (m1, x) →
     consistent m1 ∧ CurrentState m1 ≠ nilState) →
  Execute callHandler ctx m cmd = Returned (m2, out) →
  consistent m2
  ∧ CurrentState m2 ≠ nilState
  ∧ ∃ snapshot, GetSnapshot m2 = Returned snapshot.
Proof.
  intros Hc Hcur Hh Hex.
  assert (consistent m2 ∧ CurrentState m2 ≠ nilState) as [Hc2 Hcur2].
  { unfold Execute in Hex.
    destruct (findCommandHandler (registry m) (CurrentState m) (Command_Name cmd))
      as [h|] eqn:Hf.
    - destruct (callHandler ctx h m cmd) as [[m1 [result e]]|] eqn:Hcall; [|done].
      destruct (Hh _ _ _ eq_refl Hcall) as [Hc1 Hcur1]. simpl in Hex.
      destruct e as [e|]; [by injection Hex as <- <-|].
      destruct (NextState result) as [|nextName nextParent] eqn:Hn; simpl in Hex;
        [by injection Hex as <- <-|].
      destruct (CurrentState m1) as [|curName curParent] eqn:Hc1'; [done|].
      simpl in Hex. destruct (String.eqb nextName curName);
        injection Hex as <- <-; [by rewrite Hc1'|done].
    - destruct (CurrentState m) as [|name parent] eqn:Hm; [done|].
      simpl in Hex. injection Hex as <- <-. by rewrite Hm. }
  split_and!; [done|done|].
  unfold GetSnapshot. destruct (CurrentState m2); [done|]. by eexists.
Qed.

End MachineExtras.

(** * Properties of the character-sheet application *)

Lemma Character_rangeMap_ok : rangeMap_ok Character.rangeMap.
Proof. intros m. done. Qed.

Lemma Character_sortSlice_ok : sortSlice_ok Character.sortSlice.
Proof.
  assert (Total (λ a b : CommandDef, lessByName b a = false)) as Htot.
  { intros a b. unfold lessByName.
    destruct (String.ltb (Name b) (Name a)) eqn:Hba; [|by left].
    destruct (String.ltb (Name a) (Name b)) eqn:Hab; [|by right].
    by destruct (ltb_asymmetric _ _ Hab Hba). }
  intros l. unfold Character.sortSlice. split.
  - apply merge_sort_Permutation.
  - by apply Sorted_merge_sort.
Qed.

Section CharacterApp.
Import Character.
Implicit Types (m : Machine CharacterData handlerFunc) (c : string).

Lemma setup_returns : setup = Returned appRegistry.
Proof. reflexivity. Qed.

Lemma appRegistry_steps :
  ∃ r1 r2,
    RegisterCommand
      (RegisterState (RegisterState NewRegistry NoSheetState) SheetExistsState)
      NoSheetState createDef fnCreate = Returned r1
    ∧ RegisterCommand r1 SheetExistsState takeDamageDef fnTakeDamage
      = Returned r2
    ∧ RegisterCommand r2 SheetExistsState levelupDef fnLevelup
      = Returned appRegistry.
Proof. eexists _, _. split_and!; reflexivity. Qed.

Lemma appRegistry_built : built [SheetExistsState; NoSheetState] appRegistry.
Proof.
  destruct appRegistry_steps as (r1 & r2 & H1 & H2 & H3).
  eapply built_command; [|exact H3].
  eapply built_command; [|exact H2].
  eapply built_command; [|exact H1].
  apply built_state, built_state, built_new.
Qed.

Lemma appRegistry_binding s c :
  binding appRegistry s c =
  match s with
  | nilState => None
  | NewState name _ =>
      if decide (name = "NoSheet" ∧ c = "create")
      then Some {| Def := createDef; Handler := fnCreate |}
      else if decide (name = "SheetExists" ∧ c = "take-damage")
      then Some {| Def := takeDamageDef; Handler := fnTakeDamage |}
      else if decide (name = "SheetExists" ∧ c = "levelup")
      then Some {| Def := levelupDef; Handler := fnLevelup |}
      else None
  end.
Proof.
  destruct s as [|name parent]; [done|].
  destruct appRegistry_steps as (r1 & r2 & H1 & H2 & H3).
  set (r0 := RegisterState (RegisterState NewRegistry NoSheetState)
               SheetExistsState : Registry handlerFunc) in H1.
  assert (binding r0 (NewState name parent) c = None) as H0.
  { simpl. unfold r0. rewrite !RegisterState_commandHandlers. simpl.
    by rewrite lookup_empty. }
  destruct (decide (name = "SheetExists" ∧ c = "levelup")) as [[-> ->]|Hl].
  { rewrite decide_False by (by intros [? _]).
    rewrite decide_False by (by intros [_ ?]).
    by apply (RegisterCommand_binding_same r2 SheetExistsState levelupDef). }
  rewrite (RegisterCommand_binding_other _ _ _ _ _ _ c H3); cycle 1.
  { simpl. destruct (decide (name = "SheetExists")) as [->|?];
      [right; naive_solver|left; congruence]. }
  destruct (decide (name = "SheetExists" ∧ c = "take-damage")) as [[-> ->]|Hd].
  { rewrite decide_False by (by intros [? _]).
    by apply (RegisterCommand_binding_same r1 SheetExistsState takeDamageDef). }
  rewrite (RegisterCommand_binding_other _ _ _ _ _ _ c H2); cycle 1.
  { simpl. destruct (decide (name = "SheetExists")) as [->|?];
      [right; naive_solver|left; congruence]. }
  destruct (decide (name = "NoSheet" ∧ c = "create")) as [[-> ->]|Hc].
  { by apply (RegisterCommand_binding_same r0 NoSheetState createDef). }
  rewrite (RegisterCommand_binding_other _ _ _ _ _ _ c H1); [done|].
  simpl. destruct (decide (name = "NoSheet")) as [->|?];
    [right; naive_solver|left; congruence].
Qed.

Lemma appRegistry_find_Root c :
  findCommandHandler appRegistry RootState c = None.
Proof.
  unfold RootState. rewrite findCommandHandler_step, appRegistry_binding.
  repeat (rewrite decide_False by (by intros [? _])). done.
Qed.

Lemma appRegistry_find_NoSheet c :
  findCommandHandler appRegistry NoSheetState c
  = if decide (c = "create") then Some fnCreate else None.
Proof.
  unfold NoSheetState. rewrite findCommandHandler_step, appRegistry_binding.
  destruct (decide (c = "create")) as [->|Hc].
  - by rewrite decide_True.
  - rewrite decide_False by (by intros [_ ?]).
    repeat (rewrite decide_False by (by intros [? _])).
    apply appRegistry_find_Root.
Qed.

Lemma appRegistry_find_SheetExists c :
  findCommandHandler appRegistry SheetExistsState c
  = if decide (c = "take-damage") then Some fnTakeDamage
    else if decide (c = "levelup") then Some fnLevelup else None.
Proof.
  unfold SheetExistsState. rewrite findCommandHandler_step, appRegistry_binding.
  rewrite decide_False by (by intros [? _]).
  destruct (decide (c = "take-damage")) as [->|Hd].
  - by rewrite decide_True.
  - rewrite decide_False by (by intros [_ ?]).
    destruct (decide (c = "levelup")) as [->|Hl].
    + by rewrite decide_True.
    + rewrite decide_False by (by intros [_ ?]). apply appRegistry_find_Root.
Qed.

(** X16.  The dispatch table of the application: [setup] returns a
    registry in which no command resolves from [Root], only [create]
    resolves from [NoSheet] and only [take-damage] and [levelup] resolve
    from [SheetExists], each to its own handler. *)
Theorem app_dispatch_table c h :
  setup = Returned appRegistry
  ∧ findCommandHandler appRegistry RootState c = None
  ∧ (findCommandHandler appRegistry NoSheetState c = Some h
     ↔ c = "create" ∧ h = fnCreate)
  ∧ (findCommandHandler appRegistry SheetExistsState c = Some h
     ↔ (c = "take-damage" ∧ h = fnTakeDamage)
       ∨ (c = "levelup" ∧ h = fnLevelup)).
Proof.
  split_and!.
  - apply setup_returns.
  - apply appRegistry_find_Root.
  - rewrite appRegistry_find_NoSheet. case_decide; naive_solver.
  - rewrite appRegistry_find_SheetExists. repeat case_decide; naive_solver.
Qed.

(** X17.  What the application lists, whatever the iteration order of
    the maps and the sorting routine: nothing at [Root], [create] at
    [NoSheet], and [levelup] before [take-damage] at [SheetExists]. *)
Theorem app_listing rangeMap' sortSlice' :
  rangeMap_ok rangeMap' → sortSlice_ok sortSlice' →
  FindAvailableCommands rangeMap' sortSlice' appRegistry RootState = []
  ∧ FindAvailableCommands rangeMap' sortSlice' appRegistry NoSheetState
    = [createDef]
  ∧ FindAvailableCommands rangeMap' sortSlice' appRegistry SheetExistsState
    = [levelupDef; takeDamageDef].
Proof.
  intros Hr Hs.
  assert (∀ s, FindAvailableCommands rangeMap' sortSlice' appRegistry s
               = FindAvailableCommands Character.rangeMap Character.sortSlice
                   appRegistry s) as Heq.
  { intros s. eapply FindAvailableCommands_independent;
      eauto using Character_rangeMap_ok, Character_sortSlice_ok,
                  appRegistry_built. }
  rewrite !Heq. split_and!; vm_compute; reflexivity.
Qed.

End CharacterApp.
Section CharacterHandlers.
Import Character.
Variable Atoi : string → option Z.
Variable fmtInt : Z → string.
Variable floorHalf : Z → Z.
Implicit Types (m : Machine CharacterData handlerFunc) (c : string).

Lemma wrapInt_range x : (- 2 ^ 63 ≤ wrapInt x < 2 ^ 63)%Z.
Proof.
  unfold wrapInt.
  pose proof (Z.mod_pos_bound (x + 2 ^ 63) (2 ^ 64) eq_refl). lia.
Qed.

Lemma wrapInt_small x : (- 2 ^ 63 ≤ x < 2 ^ 63)%Z → wrapInt x = x.
Proof.
  intros Hx. unfold wrapInt. rewrite Z.mod_small; lia.
Qed.

(** A handler that asks for no next state, or fails: [Execute] hands its
    machine, output and error through. *)
Lemma Execute_no_transition m cmd h m1 result err :
  findCommandHandler (registry m) (CurrentState m) (Command_Name cmd) = Some h →
  (call Atoi fmtInt floorHalf) tt h m cmd = Returned (m1, (result, err)) →
  NextState result = nilState ∨ is_Some err →
  Execute (call Atoi fmtInt floorHalf) tt m cmd = Returned (m1, (Output result, err)).
Proof.
  intros Hf Hc Hn. unfold Execute. rewrite Hf, Hc. simpl.
  destruct err as [e|]; [done|].
  destruct Hn as [->|[? ?]]; done.
Qed.

Lemma Execute_moves m cmd h m1 result nextName nextParent curName :
  findCommandHandler (registry m) (CurrentState m) (Command_Name cmd) = Some h →
  (call Atoi fmtInt floorHalf) tt h m cmd = Returned (m1, (result, None)) →
  NextState result = NewState nextName nextParent →
  State_Name (CurrentState m1) = Returned curName →
  nextName ≠ curName →
  Execute (call Atoi fmtInt floorHalf) tt m cmd
  = Returned (TransitionTo m1 (NewState nextName nextParent),
              (Output result, None)).
Proof.
  intros Hf Hc Hn Hcur Hne. unfold Execute. rewrite Hf, Hc. simpl.
  rewrite Hn, Hcur. simpl.
  by destruct (String.eqb_spec nextName curName).
Qed.

Lemma Execute_create_eq m args :
  CurrentState m = NoSheetState →
  registry m = appRegistry →
  Execute (call Atoi fmtInt floorHalf) tt m (NewCommand "create" args)
  = Returned
      match args with
      | [name; race; class] =>
          ({| CurrentState := SheetExistsState;
              StateStack := [RootState; SheetExistsState];
              Data := {| Name := name; Race := race; Class := class;
                         Level := 1; HP := 10; MaxHP := 10;
                         BaseStats := {| STR := 10; DEX := 10; CON := 10 |};
                         Inventory := [] |};
              registry := appRegistry |},
           ("'" +:+ name +:+ "' the " +:+ race +:+ " " +:+ class
            +:+ " has been created!", None))
      | _ => (m, ("", Some (Errorf "usage: create [name] [race] [class]")))
      end.
Proof.
  intros Hcur Hreg.
  assert (findCommandHandler (registry m) (CurrentState m) "create"
          = Some fnCreate) as Hf.
  { rewrite Hreg, Hcur, appRegistry_find_NoSheet. done. }
  destruct args as [|a1 [|a2 [|a3 [|a4 args]]]];
    try (apply (Execute_no_transition m _ fnCreate m zeroResult); [done|done|];
         right; by eexists).
  erewrite (Execute_moves m _ fnCreate); [|done|reflexivity|reflexivity| |].
  - unfold TransitionTo. simpl. by rewrite Hreg.
  - simpl. by rewrite Hcur.
  - done.
Qed.

Lemma Execute_unavailable_eq m cmd name parent :
  CurrentState m = NewState name parent →
  findCommandHandler (registry m) (CurrentState m) (Command_Name cmd) = None →
  Execute (call Atoi fmtInt floorHalf) tt m cmd
  = Returned (m, ("", Some (Errorf
               (commandNotAvailableText (Command_Name cmd) name)))).
Proof. intros Hcur Hf. unfold Execute. by rewrite Hf, Hcur. Qed.

(** X18.  [create] works in [NoSheet] only.  There, with three
    arguments, [Execute] replaces the data by a level-1 character with
    10 of 10 hit points and statistics 10/10/10, moves the machine to
    [SheetExists] with the path [Root; SheetExists] and returns the
    greeting; with any other number of arguments it returns the usage
    error and leaves the machine as it was.  In [SheetExists] the command
    is refused and the machine left as it was. *)
Theorem Execute_create m args :
  registry m = appRegistry →
  (CurrentState m = NoSheetState →
   Execute (call Atoi fmtInt floorHalf) tt m (NewCommand "create" args)
   = Returned
       match args with
       | [name; race; class] =>
           ({| CurrentState := SheetExistsState;
               StateStack := [RootState; SheetExistsState];
               Data := {| Name := name; Race := race; Class := class;
                          Level := 1; HP := 10; MaxHP := 10;
                          BaseStats := {| STR := 10; DEX := 10; CON := 10 |};
                          Inventory := [] |};
               registry := appRegistry |},
            ("'" +:+ name +:+ "' the " +:+ race +:+ " " +:+ class
             +:+ " has been created!", None))
       | _ => (m, ("", Some (Errorf "usage: create [name] [race] [class]")))
       end)
  ∧ (CurrentState m = SheetExistsState →
     Execute (call Atoi fmtInt floorHalf) tt m (NewCommand "create" args)
     = Returned (m, ("", Some (Errorf
                  "command 'create' not available in state 'SheetExists'")))).
Proof.
  intros Hreg. split; intros Hcur.
  - by apply Execute_create_eq.
  - rewrite (Execute_unavailable_eq m _ "SheetExists" RootState); [done|done|].
    rewrite Hreg, Hcur. apply appRegistry_find_SheetExists.
Qed.

Lemma Execute_takeDamage_spec m args :
  CurrentState m = SheetExistsState →
  registry m = appRegistry →
  ∃ m' out err,
    Execute (call Atoi fmtInt floorHalf) tt m (NewCommand "take-damage" args)
      = Returned (m', (out, err))
    ∧ CurrentState m' = SheetExistsState
    ∧ StateStack m' = StateStack m
    ∧ registry m' = appRegistry
    ∧ (is_Some err → m' = m ∧ out = "")
    ∧ (err = None →
       ∃ arg amount,
         args = [arg] ∧ Atoi arg = Some amount
         ∧ out = Name (Data m) +:+ " takes " +:+ fmtInt amount +:+ " damage!"
         ∧ HP (Data m') = Z.max 0 (wrapInt (HP (Data m) - amount))
         ∧ (0 ≤ HP (Data m'))%Z
         ∧ ((- 2 ^ 63 ≤ HP (Data m) - amount < 2 ^ 63)%Z →
            HP (Data m') = Z.max 0 (HP (Data m) - amount))
         ∧ Name (Data m') = Name (Data m)
         ∧ Race (Data m') = Race (Data m)
         ∧ Class (Data m') = Class (Data m)
         ∧ Level (Data m') = Level (Data m)
         ∧ MaxHP (Data m') = MaxHP (Data m)
         ∧ BaseStats (Data m') = BaseStats (Data m)
         ∧ Inventory (Data m') = Inventory (Data m)).
Proof.
  intros Hcur Hreg.
  assert (findCommandHandler (registry m) (CurrentState m) "take-damage"
          = Some fnTakeDamage) as Hf.
  { rewrite Hreg, Hcur, appRegistry_find_SheetExists. done. }
  destruct (takeDamage Atoi fmtInt tt m (NewCommand "take-damage" args))
    as [[m1 [result err]]|] eqn:Ht; cycle 1.
  { unfold takeDamage in Ht. simpl in Ht.
    destruct args as [|arg [|]]; [done| |done]. by destruct (Atoi arg). }
  assert (NextState result = nilState ∨ is_Some err) as Hn.
  { unfold takeDamage in Ht. simpl in Ht.
    destruct args as [|arg [|]];
      [injection Ht as <- <- <-; by left| |injection Ht as <- <- <-; by left].
    destruct (Atoi arg); injection Ht as <- <- <-; by left. }
  exists m1, (Output result), err.
  split; [by apply (Execute_no_transition m _ fnTakeDamage)|].
  unfold takeDamage in Ht. simpl in Ht.
  destruct args as [|arg [|arg2 args]].
  - injection Ht as <- <- <-. split_and!; [done..|]. done.
  - destruct (Atoi arg) as [amount|] eqn:Ha; injection Ht as <- <- <-.
    + split_and!; [done|done|done|by intros [? [=]]|]. intros _.
      exists arg, amount. simpl.
      assert ((if (wrapInt (HP (Data m) - amount) <? 0)%Z then 0%Z
               else wrapInt (HP (Data m) - amount))
              = Z.max 0 (wrapInt (HP (Data m) - amount))) as ->.
      { destruct (Z.ltb_spec (wrapInt (HP (Data m) - amount)) 0); lia. }
      split_and!; [done|done|done|done|lia| |done..].
      intros Hr. by rewrite wrapInt_small.
    + split_and!; [done..|]. done.
  - injection Ht as <- <- <-. split_and!; [done..|]. done.
Qed.

Lemma Execute_takeDamage_cases m args :
  CurrentState m = SheetExistsState →
  registry m = appRegistry →
  (∀ arg amount,
     args = [arg] → Atoi arg = Some amount →
     Execute (call Atoi fmtInt floorHalf) tt m (NewCommand "take-damage" args)
     = Returned
         (setData m
            {| Name := Name (Data m); Race := Race (Data m);
               Class := Class (Data m); Level := Level (Data m);
               HP := Z.max 0 (wrapInt (HP (Data m) - amount));
               MaxHP := MaxHP (Data m); BaseStats := BaseStats (Data m);
               Inventory := Inventory (Data m) |},
          (Name (Data m) +:+ " takes " +:+ fmtInt amount +:+ " damage!",
           None)))
  ∧ (∀ arg,
       args = [arg] → Atoi arg = None →
       Execute (call Atoi fmtInt floorHalf) tt m (NewCommand "take-damage" args)
       = Returned (m, ("", Some (Errorf "invalid amount: must be a number"))))
  ∧ ((∀ arg, args ≠ [arg]) →
     Execute (call Atoi fmtInt floorHalf) tt m (NewCommand "take-damage" args)
     = Returned (m, ("", Some (Errorf "usage: take-damage [amount]")))).
Proof.
  intros Hcur Hreg.
  assert (findCommandHandler (registry m) (CurrentState m) "take-damage"
          = Some fnTakeDamage) as Hf.
  { rewrite Hreg, Hcur, appRegistry_find_SheetExists. done. }
  assert (∀ m1 result err,
            takeDamage Atoi fmtInt tt m (NewCommand "take-damage" args)
              = Returned (m1, (result, err)) →
            NextState result = nilState →
            Execute (call Atoi fmtInt floorHalf) tt m
              (NewCommand "take-damage" args)
            = Returned (m1, (Output result, err))) as Hrun.
  { intros m1 result err Ht Hn.
    apply (Execute_no_transition m _ fnTakeDamage); [done|done|by left]. }
  split_and!.
  - intros arg amount -> Ha.
    erewrite Hrun;
      [|unfold takeDamage; simpl; rewrite Ha; reflexivity|reflexivity].
    simpl. do 3 f_equal.
    destruct (Z.ltb_spec (wrapInt (HP (Data m) - amount)) 0);
      f_equal; lia.
  - intros arg -> Ha.
    erewrite Hrun;
      [|unfold takeDamage; simpl; rewrite Ha; reflexivity|reflexivity].
    done.
  - intros Hargs.
    destruct args as [|arg [|arg2 args]]; [|by destruct (Hargs arg)|];
      (erewrite Hrun; [|reflexivity|reflexivity]); done.
Qed.

(** X19.  [take-damage] in [SheetExists].  With one argument that [Atoi]
    accepts, [Execute] returns the damage message and no error, and only
    the hit points change: they become the old value less the amount,
    wrapped to [int], and 0 if that is negative, so they are never
    negative afterwards; without overflow this is the larger of 0 and
    the difference.  With one argument that [Atoi] refuses the error is
    the invalid-amount error, with any other number of arguments the
    usage error, and in both cases the output is empty and the machine
    as it was.  In every case [Execute] returns and the machine stays in
    [SheetExists] with its path and its registry. *)
Theorem Execute_takeDamage m args :
  CurrentState m = SheetExistsState →
  registry m = appRegistry →
  (∀ arg amount,
     args = [arg] → Atoi arg = Some amount →
     Execute (call Atoi fmtInt floorHalf) tt m (NewCommand "take-damage" args)
     = Returned
         (setData m
            {| Name := Name (Data m); Race := Race (Data m);
               Class := Class (Data m); Level := Level (Data m);
               HP := Z.max 0 (wrapInt (HP (Data m) - amount));
               MaxHP := MaxHP (Data m); BaseStats := BaseStats (Data m);
               Inventory := Inventory (Data m) |},
          (Name (Data m) +:+ " takes " +:+ fmtInt amount +:+ " damage!",
           None)))
  ∧ (∀ arg,
       args = [arg] → Atoi arg = None →
       Execute (call Atoi fmtInt floorHalf) tt m (NewCommand "take-damage" args)
       = Returned (m, ("", Some (Errorf "invalid amount: must be a number"))))
  ∧ ((∀ arg, args ≠ [arg]) →
     Execute (call Atoi fmtInt floorHalf) tt m (NewCommand "take-damage" args)
     = Returned (m, ("", Some (Errorf "usage: take-damage [amount]"))))
  ∧ (
  ∃ m' out err,
    Execute (call Atoi fmtInt floorHalf) tt m (NewCommand "take-damage" args)
      = Returned (m', (out, err))
    ∧ CurrentState m' = SheetExistsState
    ∧ StateStack m' = StateStack m
    ∧ registry m' = appRegistry
    ∧ (is_Some err → m' = m ∧ out = "")
    ∧ (err = None →
       ∃ arg amount,
         args = [arg] ∧ Atoi arg = Some amount
         ∧ out = Name (Data m) +:+ " takes " +:+ fmtInt amount +:+ " damage!"
         ∧ HP (Data m') = Z.max 0 (wrapInt (HP (Data m) - amount))
         ∧ (0 ≤ HP (Data m'))%Z
         ∧ ((- 2 ^ 63 ≤ HP (Data m) - amount < 2 ^ 63)%Z →
            HP (Data m') = Z.max 0 (HP (Data m) - amount))
         ∧ Name (Data m') = Name (Data m)
         ∧ Race (Data m') = Race (Data m)
         ∧ Class (Data m') = Class (Data m)
         ∧ Level (Data m') = Level (Data m)
         ∧ MaxHP (Data m') = MaxHP (Data m)
         ∧ BaseStats (Data m') = BaseStats (Data m)
         ∧ Inventory (Data m') = Inventory (Data m))).
Proof.
  intros Hcur Hreg.
  destruct (Execute_takeDamage_cases m args Hcur Hreg) as (H1 & H2 & H3).
  split_and!; [done|done|done|]. by apply Execute_takeDamage_spec.
Qed.

Lemma Execute_levelup_spec m args :
  CurrentState m = SheetExistsState →
  registry m = appRegistry →
  ∃ m' increase,
    Execute (call Atoi fmtInt floorHalf) tt m (NewCommand "levelup" args)
      = Returned (m', (Name (Data m) +:+ " reached level "
                       +:+ fmtInt (Level (Data m')) +:+ "!", None))
    ∧ CurrentState m' = SheetExistsState
    ∧ StateStack m' = StateStack m
    ∧ registry m' = appRegistry
    ∧ Level (Data m') = wrapInt (Level (Data m) + 1)
    ∧ (1 ≤ increase < 2 ^ 63)%Z
    ∧ (CON (BaseStats (Data m)) = 10%Z → floorHalf 0 = 0%Z → increase = 5%Z)
    ∧ MaxHP (Data m') = wrapInt (MaxHP (Data m) + increase)
    ∧ ((- 2 ^ 63 ≤ MaxHP (Data m))%Z →
       (MaxHP (Data m) + increase < 2 ^ 63)%Z →
       (MaxHP (Data m) < MaxHP (Data m'))%Z)
    ∧ HP (Data m') = MaxHP (Data m')
    ∧ Name (Data m') = Name (Data m)
    ∧ Race (Data m') = Race (Data m)
    ∧ Class (Data m') = Class (Data m)
    ∧ BaseStats (Data m') = BaseStats (Data m)
    ∧ Inventory (Data m') = Inventory (Data m).
Proof.
  intros Hcur Hreg.
  assert (findCommandHandler (registry m) (CurrentState m) "levelup"
          = Some fnLevelup) as Hf.
  { rewrite Hreg, Hcur, appRegistry_find_SheetExists. done. }
  set (bonus := wrapInt (5 + floorHalf (wrapInt (CON (BaseStats (Data m)) - 10)))).
  set (increase := if (bonus <? 1)%Z then 1%Z else bonus).
  pose proof (Execute_no_transition m (NewCommand "levelup" args) fnLevelup
                _ _ None Hf eq_refl (or_introl eq_refl)) as Hex.
  eexists _, increase. split; [exact Hex|].
  simpl. fold bonus. fold increase.
  assert (1 ≤ increase < 2 ^ 63)%Z as Hinc.
  { unfold increase. pose proof (wrapInt_range
      (5 + floorHalf (wrapInt (CON (BaseStats (Data m)) - 10)))).
    fold bonus in H. destruct (Z.ltb_spec bonus 1); lia. }
  split_and!; try done; [lia|lia| |].
  - intros Hcon H0. unfold increase, bonus. rewrite Hcon. simpl.
    change (wrapInt (10 - 10)) with 0%Z. rewrite H0. reflexivity.
  - intros Hlo Hhi. rewrite wrapInt_small; lia.
Qed.

(** X20.  [levelup] in [SheetExists] never fails, whatever the
    arguments: the level goes up by one, the maximum of hit points by an
    increase of at least 1 (5 when the constitution is 10 and [floorHalf]
    maps 0 to 0), the hit points are restored to the new maximum, nothing
    else changes and the machine stays in [SheetExists]. *)
Theorem Execute_levelup m args :
  CurrentState m = SheetExistsState →
  registry m = appRegistry →
  ∃ m' increase,
    Execute (call Atoi fmtInt floorHalf) tt m (NewCommand "levelup" args)
      = Returned (m', (Name (Data m) +:+ " reached level "
                       +:+ fmtInt (Level (Data m')) +:+ "!", None))
    ∧ CurrentState m' = SheetExistsState
    ∧ StateStack m' = StateStack m
    ∧ registry m' = appRegistry
    ∧ Level (Data m') = wrapInt (Level (Data m) + 1)
    ∧ (1 ≤ increase < 2 ^ 63)%Z
    ∧ (CON (BaseStats (Data m)) = 10%Z → floorHalf 0 = 0%Z → increase = 5%Z)
    ∧ MaxHP (Data m') = wrapInt (MaxHP (Data m) + increase)
    ∧ ((- 2 ^ 63 ≤ MaxHP (Data m))%Z →
       (MaxHP (Data m) + increase < 2 ^ 63)%Z →
       (MaxHP (Data m) < MaxHP (Data m'))%Z)
    ∧ HP (Data m') = MaxHP (Data m')
    ∧ Name (Data m') = Name (Data m)
    ∧ Race (Data m') = Race (Data m)
    ∧ Class (Data m') = Class (Data m)
    ∧ BaseStats (Data m') = BaseStats (Data m)
    ∧ Inventory (Data m') = Inventory (Data m).
Proof. apply Execute_levelup_spec. Qed.

Lemma appRegistry_states :
  states appRegistry
  = <["SheetExists" := SheetExistsState]>
      (<["Root" := RootState]> (<["NoSheet" := NoSheetState]> ∅)).
Proof. vm_compute. reflexivity. Qed.

Lemma appRegistry_lookup name :
  (name ∈ appStateNames ∧ ∃ s, states appRegistry !! name = Some s
                               ∧ s ∈ appStates
                               ∧ State_Name s = Returned name)
  ∨ ((name ∉ appStateNames) ∧ states appRegistry !! name = None).
Proof.
  rewrite appRegistry_states. unfold appStateNames, appStates.
  destruct (decide (name = "SheetExists")) as [->|H1].
  { left. split; [set_solver|]. exists SheetExistsState.
    rewrite lookup_insert_eq. split_and!; [done|set_solver|done]. }
  rewrite lookup_insert_ne by done.
  destruct (decide (name = "Root")) as [->|H2].
  { left. split; [set_solver|]. exists RootState.
    rewrite lookup_insert_eq. split_and!; [done|set_solver|done]. }
  rewrite lookup_insert_ne by done.
  destruct (decide (name = "NoSheet")) as [->|H3].
  { left. split; [set_solver|]. exists NoSheetState.
    rewrite lookup_insert_eq. split_and!; [done|set_solver|done]. }
  rewrite lookup_insert_ne by done. right. split; [set_solver|done].
Qed.

Lemma appStates_named s :
  s ∈ appStates → ∃ name, State_Name s = Returned name ∧ name ∈ appStateNames.
Proof.
  unfold appStates, appStateNames. rewrite !elem_of_cons, elem_of_nil.
  intros [->|[->|[->|[]]]]; eexists; (split; [reflexivity|set_solver]).
Qed.

(** In the application [Execute] always returns, and keeps the machine
    on the application's registry and in one of its states. *)
Lemma Execute_app m cmd :
  registry m = appRegistry →
  CurrentState m ∈ appStates →
  ∃ m' res,
    Execute (call Atoi fmtInt floorHalf) tt m cmd = Returned (m', res)
    ∧ registry m' = appRegistry
    ∧ CurrentState m' ∈ appStates.
Proof.
  intros Hreg Hin. destruct cmd as [c args].
  unfold appStates in Hin. rewrite !elem_of_cons, elem_of_nil in Hin.
  destruct Hin as [Hcur|[Hcur|[Hcur|[]]]].
  - eexists _, _. split; [|split; [done|rewrite Hcur; set_solver]].
    apply (Execute_unavailable_eq m _ "Root" nilState); [done|].
    rewrite Hreg, Hcur. apply appRegistry_find_Root.
  - destruct (decide (c = "create")) as [->|Hc].
    + rewrite (Execute_create_eq m args Hcur Hreg).
      destruct args as [|a1 [|a2 [|a3 [|a4 args]]]]; eexists _, _;
        (split; [reflexivity|split; [done|]]);
        rewrite ?Hcur; simpl; unfold appStates; set_solver.
    + eexists _, _. split; [|split; [done|rewrite Hcur; set_solver]].
      apply (Execute_unavailable_eq m _ "NoSheet" RootState); [done|].
      rewrite Hreg, Hcur, appRegistry_find_NoSheet. by rewrite decide_False.
  - destruct (decide (c = "take-damage")) as [->|Hd].
    { destruct (Execute_takeDamage_spec m args Hcur Hreg)
        as (m' & out & err & Hex & Hc' & _ & Hr' & _).
      exists m', (out, err). split_and!; [done|done|].
      rewrite Hc'. unfold appStates. set_solver. }
    destruct (decide (c = "levelup")) as [->|Hl].
    { destruct (Execute_levelup_spec m args Hcur Hreg)
        as (m' & inc & Hex & Hc' & _ & Hr' & _).
      eexists m', _. split_and!; [done|done|].
      rewrite Hc'. unfold appStates. set_solver. }
    eexists _, _. split; [|split; [done|rewrite Hcur; set_solver]].
    apply (Execute_unavailable_eq m _ "SheetExists" RootState); [done|].
    rewrite Hreg, Hcur, appRegistry_find_SheetExists.
    by rewrite !decide_False.
Qed.

Lemma mainToSave_unfold loaded argv :
  mainToSave Atoi fmtInt floorHalf loaded argv
  = executeAndSave Atoi fmtInt floorHalf (loadMachine appRegistry loaded) argv.
Proof. unfold mainToSave. by rewrite setup_returns. Qed.

(** Command execution and saving on a machine of the application. *)
Lemma executeAndSave_app m argv :
  registry m = appRegistry →
  CurrentState m ∈ appStates →
  ∃ snapshot res,
    executeAndSave Atoi fmtInt floorHalf (Some m) argv
    = Returned (snapshot, res)
    ∧ CurrentStateName snapshot ∈ appStateNames.
Proof.
  intros Hreg Hin. unfold executeAndSave.
  destruct argv as [|name args].
  - destruct (appStates_named _ Hin) as (n & Hn & Hnin).
    unfold GetSnapshot. cbn. rewrite Hn. cbn. by eexists _, _.
  - destruct (Execute_app m (NewCommand name args) Hreg Hin)
      as (m' & res & -> & Hreg' & Hin'). cbn.
    destruct (appStates_named _ Hin') as (n & Hn & Hnin).
    unfold GetSnapshot. rewrite Hn. cbn. by eexists _, _.
Qed.

Lemma executeAndSave_nil argv :
  executeAndSave Atoi fmtInt floorHalf None argv = Panicked.
Proof. by destruct argv. Qed.

Lemma mainToSave_spec loaded argv :
  (loaded = None ∨ (∃ snapshot, loaded = Some snapshot
                     ∧ CurrentStateName snapshot ∈ appStateNames) →
   ∃ snapshot res,
     mainToSave Atoi fmtInt floorHalf loaded argv = Returned (snapshot, res)
     ∧ CurrentStateName snapshot ∈ appStateNames)
  ∧ (∀ snapshot, loaded = Some snapshot →
                 (CurrentStateName snapshot ∉ appStateNames) →
                 mainToSave Atoi fmtInt floorHalf loaded argv = Panicked).
Proof.
  rewrite mainToSave_unfold. split.
  - intros [->|(snapshot & -> & Hn)].
    + apply executeAndSave_app; [done|].
      simpl. unfold appStates. set_solver.
    + destruct (appRegistry_lookup (CurrentStateName snapshot))
        as [(_ & s & Hs & Hin & _)|[? _]]; [|done].
      unfold loadMachine, NewMachineFromSnapshot, GetStateByName. rewrite Hs.
      by apply executeAndSave_app.
  - intros snapshot -> Hn.
    destruct (appRegistry_lookup (CurrentStateName snapshot))
      as [[? _]|(_ & Hs)]; [done|].
    unfold loadMachine, NewMachineFromSnapshot, GetStateByName. rewrite Hs.
    apply executeAndSave_nil.
Qed.

(** X21.  [main] up to its call of [saveSnapshot].  Without a snapshot,
    or with one whose state name is [Root], [NoSheet] or [SheetExists],
    [main] reaches that call, whatever the arguments, and the snapshot it
    hands over names one of these three states again; so with a snapshot
    saved by one run the next run reaches the call as well.  With a
    snapshot that names any other state [main] panics before the call:
    the error of [NewMachineFromSnapshot] is dropped and the nil machine
    dereferenced.  (What [main] displays after saving is not covered.) *)
Theorem mainToSave_persists loaded argv :
  (loaded = None ∨ (∃ snapshot, loaded = Some snapshot
                     ∧ CurrentStateName snapshot ∈ appStateNames) →
   ∃ snapshot res,
     mainToSave Atoi fmtInt floorHalf loaded argv = Returned (snapshot, res)
     ∧ CurrentStateName snapshot ∈ appStateNames)
  ∧ (∀ snapshot, loaded = Some snapshot →
                 (CurrentStateName snapshot ∉ appStateNames) →
                 mainToSave Atoi fmtInt floorHalf loaded argv = Panicked)
  ∧ (∀ snapshot res argv',
       mainToSave Atoi fmtInt floorHalf loaded argv = Returned (snapshot, res) →
       ∃ snapshot' res',
         mainToSave Atoi fmtInt floorHalf (Some snapshot) argv'
         = Returned (snapshot', res')).
Proof.
  destruct (mainToSave_spec loaded argv) as [Hok Hbad]. split_and!; [done|done|].
  intros snapshot res argv' Hrun.
  assert (CurrentStateName snapshot ∈ appStateNames) as Hn.
  { destruct loaded as [snapshot0|].
    - destruct (decide (CurrentStateName snapshot0 ∈ appStateNames)) as [Hin|Hout].
      + destruct Hok as (s' & r' & Hr' & Hin'); [right; eauto|].
        rewrite Hrun in Hr'. by injection Hr' as <- <-.
      + rewrite (Hbad snapshot0 eq_refl Hout) in Hrun. done.
    - destruct Hok as (s' & r' & Hr' & Hin'); [by left|].
      rewrite Hrun in Hr'. by injection Hr' as <- <-. }
  destruct (mainToSave_spec (Some snapshot) argv') as [Hok' _].
  destruct Hok' as (s' & r' & Hr' & _); [right; eauto|]. eauto.
Qed.

End CharacterHandlers.

(** * The further properties on the demo application and on the character sheet *)

Lemma X2_witness :
  binding (Demo.bind (Demo.bind NewRegistry Demo.Ready (Demo.def "help") Demo.help)
             Demo.Ready (mkCommandDef "help" "[topic]" "") Demo.helpTopic)
    Demo.Ready "help"
  = Some {| Def := mkCommandDef "help" "[topic]" ""; Handler := Demo.helpTopic |}
  ∧ findCommandHandler
      (Demo.bind (Demo.bind NewRegistry Demo.Ready (Demo.def "help") Demo.help)
         Demo.Ready (mkCommandDef "help" "[topic]" "") Demo.helpTopic)
      Demo.Ready "help" = Some Demo.helpTopic
  ∧ RegisterCommand NewRegistry Demo.Ready (mkCommandDef "help" "[topic]" "")
      Demo.helpTopic
    = Returned
        (Demo.bind (Demo.bind NewRegistry Demo.Ready (Demo.def "help") Demo.help)
           Demo.Ready (mkCommandDef "help" "[topic]" "") Demo.helpTopic).
Proof.
  apply (RegisterCommand_last_write_wins NewRegistry Demo.Ready
           (Demo.def "help") Demo.help
           (mkCommandDef "help" "[topic]" "") Demo.helpTopic
           (Demo.bind NewRegistry Demo.Ready (Demo.def "help") Demo.help));
    reflexivity.
Defined.

Lemma X3_witness :
  states Demo.registryNoStates = states (NewRegistry : Registry Demo.handler)
  ∧ (∀ b, State_Name b = State_Name Demo.Root →
          binding Demo.registryNoStates b (Name (Demo.def "help"))
          = Some {| Def := Demo.def "help"; Handler := Demo.help |})
  ∧ (∀ b c, State_Name b ≠ State_Name Demo.Root ∨ c ≠ Name (Demo.def "help") →
            binding Demo.registryNoStates b c = binding NewRegistry b c).
Proof.
  apply (RegisterCommand_changes_one_binding NewRegistry Demo.Root
           (Demo.def "help") Demo.help Demo.registryNoStates).
  reflexivity.
Defined.

Lemma X6_witness :
  State_Name Demo.Root = Returned "Root"
  ∧ Demo.Root ∈ familyOf [Demo.Finished; Demo.Ready].
Proof.
  apply (GetStateByName_sound [Demo.Finished; Demo.Ready] Demo.registry1
           "Root" Demo.Root Demo_registry1_built).
  vm_compute. reflexivity.
Defined.

Lemma X8_witness :
  (is_Some (findCommandHandler Demo.registry1 Demo.Root "help") →
   is_Some (findCommandHandler Demo.registry1 Demo.Finished "help"))
  ∧ (∀ pre, chain Demo.Finished = pre ++ chain Demo.Root →
            Forall (λ b, binding Demo.registry1 b "help" = None) pre →
            findCommandHandler Demo.registry1 Demo.Finished "help"
            = findCommandHandler Demo.registry1 Demo.Root "help").
Proof.
  apply (findCommandHandler_inherited Demo.registry1 Demo.Finished Demo.Root "help").
  cbn. apply list_elem_of_further, list_elem_of_here.
Defined.

Lemma X9_witness :
  "boom" ∈ Name <$> FindAvailableCommands Demo.rangeMap Demo.sortSlice
                      Demo.registry1 Demo.Ready
  ↔ is_Some (findCommandHandler Demo.registry1 Demo.Ready "boom").
Proof.
  exact (FindAvailableCommands_lists_what_dispatches
           Demo.rangeMap Demo.sortSlice _ Demo.registry1 Demo.Ready "boom"
           Demo_rangeMap_ok Demo_sortSlice_ok Demo_registry1_built).
Defined.

Lemma X10_witness :
  (FindAvailableCommands Demo.rangeMap Demo.sortSlice Demo.registry0 Demo.Ready = []
   ↔ ∀ c, findCommandHandler Demo.registry0 Demo.Ready c = None)
  ∧ FindAvailableCommands Demo.rangeMap Demo.sortSlice Demo.registry0 nilState = []
  ∧ (commandHandlers Demo.registry0 = ∅ →
     FindAvailableCommands Demo.rangeMap Demo.sortSlice Demo.registry0 Demo.Ready = []).
Proof.
  apply (FindAvailableCommands_empty Demo.rangeMap Demo.sortSlice
           [Demo.Finished; Demo.Ready] Demo.registry0 Demo.Ready
           Demo_rangeMap_ok Demo_sortSlice_ok).
  apply built_state, built_state, built_new.
Defined.

Lemma X11_witness :
  GetSnapshot (T := nat) (H := Demo.handler)
    {| CurrentState := Demo.Ready; StateStack := [Demo.Root; Demo.Ready];
       Data := 3; registry := Demo.registry1 |}
  = Returned {| CurrentStateName := "Ready"; Snapshot_Data := 3 |}
  ∧ registry {| CurrentState := Demo.Ready; StateStack := [Demo.Root; Demo.Ready];
                Data := 3; registry := Demo.registry1 |} = Demo.registry1
  ∧ consistent {| CurrentState := Demo.Ready; StateStack := [Demo.Root; Demo.Ready];
                  Data := 3; registry := Demo.registry1 |}.
Proof.
  apply (restore_then_snapshot [Demo.Finished; Demo.Ready] Demo.registry1
           {| CurrentStateName := "Ready"; Snapshot_Data := 3 |} _
           Demo_registry1_built).
  vm_compute. reflexivity.
Defined.

Lemma X12_witness :
  ∃ snapshot,
    GetSnapshot Demo.machine1 = Returned snapshot
    ∧ NewMachineFromSnapshot (registry Demo.machine1) snapshot = inl Demo.machine1.
Proof.
  apply (snapshot_then_restore Demo.machine1).
  - vm_compute. reflexivity.
  - reflexivity.
Defined.

Lemma Demo_call_keeps h m cmd m1 x :
  consistent m → CurrentState m ≠ nilState →
  Demo.call tt h m cmd = Returned (m1, x) →
  consistent m1 ∧ CurrentState m1 ≠ nilState.
Proof. intros Hc Hn. destruct h; intros [= <- <-]; by split. Qed.

Lemma X15_witness :
  consistent (Demo.setData Demo.machine1 1)
  ∧ CurrentState (Demo.setData Demo.machine1 1) ≠ nilState
  ∧ ∃ snapshot, GetSnapshot (Demo.setData Demo.machine1 1) = Returned snapshot.
Proof.
  apply (Execute_keeps_consistent Demo.call tt Demo.machine1
           (NewCommand "inc" []) _ ("Count is now larger", None)).
  - reflexivity.
  - done.
  - intros h m1 x _. by apply Demo_call_keeps.
  - vm_compute. reflexivity.
Defined.

Lemma X13_witness :
  (findCommandHandler (registry Demo.machine1) (CurrentState Demo.machine1)
     (Command_Name (NewCommand "boom" [])) = None
   ∧ Demo.setData Demo.machine1 1 = Demo.machine1
   ∧ "partial" = "" ∧ is_Some (Some (Errorf "counter overflow")))
  ∨ (∃ h m1 result,
       findCommandHandler (registry Demo.machine1) (CurrentState Demo.machine1)
         (Command_Name (NewCommand "boom" [])) = Some h
       ∧ Demo.call tt h Demo.machine1 (NewCommand "boom" [])
         = Returned (m1, (result, Some (Errorf "counter overflow")))
       ∧ "partial" = Output result
       ∧ Data (Demo.setData Demo.machine1 1) = Data m1
       ∧ registry (Demo.setData Demo.machine1 1) = registry m1
       ∧ (is_Some (Some (Errorf "counter overflow")) →
          Demo.setData Demo.machine1 1 = m1)).
Proof.
  apply (Execute_passes_through Demo.call tt Demo.machine1 (NewCommand "boom" [])).
  vm_compute. reflexivity.
Defined.

(** The character sheet, with decimal parsing and printing. *)

Lemma X17_witness :
  FindAvailableCommands Character.rangeMap Character.sortSlice
    Character.appRegistry Character.RootState = []
  ∧ FindAvailableCommands Character.rangeMap Character.sortSlice
      Character.appRegistry Character.NoSheetState
    = [Character.createDef]
  ∧ FindAvailableCommands Character.rangeMap Character.sortSlice
      Character.appRegistry Character.SheetExistsState
    = [Character.levelupDef; Character.takeDamageDef].
Proof.
  exact (app_listing Character.rangeMap Character.sortSlice
           Character_rangeMap_ok Character_sortSlice_ok).
Defined.

Example Character_first_save :
  Character.mainToSave Character.decimalAtoi Character.decimalFmt Character.halve
    None ["create"; "Aria"; "Elf"; "Mage"]
  = Returned (Character.ariaSnapshot 1 10 10,
              Some ("'Aria' the Elf Mage has been created!", None)).
Proof. vm_compute. reflexivity. Qed.

Example Character_take_damage :
  Character.mainToSave Character.decimalAtoi Character.decimalFmt Character.halve
    (Some (Character.ariaSnapshot 1 10 10)) ["take-damage"; "25"]
  = Returned (Character.ariaSnapshot 1 0 10,
              Some ("Aria takes 25 damage!", None)).
Proof. vm_compute. reflexivity. Qed.

Example Character_levelup :
  Character.mainToSave Character.decimalAtoi Character.decimalFmt Character.halve
    (Some (Character.ariaSnapshot 1 0 10)) ["levelup"]
  = Returned (Character.ariaSnapshot 2 15 15,
              Some ("Aria reached level 2!", None)).
Proof. vm_compute. reflexivity. Qed.

Example Character_bad_amount :
  Character.mainToSave Character.decimalAtoi Character.decimalFmt Character.halve
    (Some (Character.ariaSnapshot 1 10 10)) ["take-damage"; "lots"]
  = Returned (Character.ariaSnapshot 1 10 10,
              Some ("", Some (Errorf "invalid amount: must be a number"))).
Proof. vm_compute. reflexivity. Qed.

Example Character_unknown_state_panics :
  Character.mainToSave Character.decimalAtoi Character.decimalFmt Character.halve
    (Some {| CurrentStateName := "Nowhere"; Snapshot_Data := Character.zeroData |})
    ["levelup"]
  = Panicked.
Proof. vm_compute. reflexivity. Qed.

Lemma X18_witness :
  Execute (Character.call Character.decimalAtoi Character.decimalFmt Character.halve)
    tt Character.freshMachine (NewCommand "create" ["Aria"; "Elf"; "Mage"])
  = Returned
      (Character.ariaMachine 1 10 10,
       ("'Aria' the Elf Mage has been created!", None)).
Proof.
  exact (proj1 (Execute_create Character.decimalAtoi Character.decimalFmt
                  Character.halve Character.freshMachine
                  ["Aria"; "Elf"; "Mage"] eq_refl) eq_refl).
Defined.

Lemma X19_witness :
  Execute (Character.call Character.decimalAtoi Character.decimalFmt Character.halve)
    tt (Character.ariaMachine 1 10 10) (NewCommand "take-damage" ["25"])
  = Returned (Character.ariaMachine 1 0 10, ("Aria takes 25 damage!", None))
  ∧ Execute (Character.call Character.decimalAtoi Character.decimalFmt Character.halve)
      tt (Character.ariaMachine 1 10 10) (NewCommand "take-damage" ["lots"])
    = Returned (Character.ariaMachine 1 10 10,
                ("", Some (Errorf "invalid amount: must be a number"))).
Proof.
  destruct (Execute_takeDamage Character.decimalAtoi Character.decimalFmt
              Character.halve (Character.ariaMachine 1 10 10) ["25"]
              eq_refl eq_refl) as (Hok & _).
  destruct (Execute_takeDamage Character.decimalAtoi Character.decimalFmt
              Character.halve (Character.ariaMachine 1 10 10) ["lots"]
              eq_refl eq_refl) as (_ & Hbad & _).
  split.
  - rewrite (Hok "25" 25%Z eq_refl ltac:(vm_compute; reflexivity)).
    vm_compute. reflexivity.
  - rewrite (Hbad "lots" eq_refl ltac:(vm_compute; reflexivity)).
    reflexivity.
Defined.

Lemma X20_witness :
  ∃ m' increase,
    Execute (Character.call Character.decimalAtoi Character.decimalFmt Character.halve)
      tt (Character.ariaMachine 1 0 10) (NewCommand "levelup" [])
    = Returned (m', (Character.Name (Data (Character.ariaMachine 1 0 10))
                     +:+ " reached level "
                     +:+ Character.decimalFmt (Character.Level (Data m'))
                     +:+ "!", None))
    ∧ increase = 5%Z
    ∧ Character.HP (Data m') = Character.MaxHP (Data m').
Proof.
  destruct (Execute_levelup Character.decimalAtoi Character.decimalFmt
              Character.halve (Character.ariaMachine 1 0 10) []
              eq_refl eq_refl)
    as (m' & increase & Hex & _ & _ & _ & _ & _ & H5 & _ & _ & Hhp & _).
  exists m', increase. split_and!; [exact Hex|by apply H5|exact Hhp].
Defined.

Example toFloat64_rounds :
  Character.toFloat64 (2 ^ 53 - 1) = (2 ^ 53 - 1)%Z
  ∧ Character.toFloat64 (2 ^ 53 + 1) = (2 ^ 53)%Z
  ∧ Character.toFloat64 (2 ^ 53 + 3) = (2 ^ 53 + 4)%Z
  ∧ Character.toFloat64 (- (2 ^ 53 + 1)) = (- 2 ^ 53)%Z
  ∧ Character.toFloat64 (2 ^ 63 - 1) = (2 ^ 63)%Z
  ∧ Character.toFloat64 (- 2 ^ 63) = (- 2 ^ 63)%Z
  ∧ Character.halve (-1) = (-1)%Z
  ∧ Character.halve 7 = 3%Z.
Proof. vm_compute. done. Qed.
